(** * NTT table generators of BLISS: [tools/psi_power_tables.c] and
    [tools/shoup_tables.c]

    A shallow embedding of the two command-line tools that validate a
    root candidate [psi] for a modulus [q] and a transform size [n] and
    print tables of roots of unity.

    Conventions of the embedding.
    - A [uint32_t] is a [Z] in [0, 2^32); every unsigned product, sum and
      shift is reduced with [u32].
    - An [int32_t] is a [Z] in [-2^31, 2^31); signed arithmetic wraps in two's
      complement ([i32]), which is what the tools' targets do on overflow.
    - [assert] is active (the tools are built without NDEBUG): a failed
      assertion aborts the computation, see [outcome].
    - A store outside an array and a division by zero are the outcome
      [Trap].  The divisor [q] of the [%] in [power] is guarded by its
      assertion; [power_table] and [main] compute [% q] only behind the
      argument check [q >= 2].
    - A loop whose trip count is not fixed by a counter runs on a bound of
      the model; running past it is the outcome [Diverge].
    - [long] has 64 bits; the command line is represented by the values
      [atol] returns on [argv[1]], [argv[2]], ...
    - The console of a process records what the tools' own [fprintf]
      calls write.  The line that a failed [assert] writes to [stderr]
      before [abort] is not recorded: at an aborted end only [stdout] is
      stated. *)

From stdpp Require Import base list.
From Stdlib Require Import ZArith Lia Znumtheory Zpow_facts.

Local Open Scope Z_scope.

(** ** Machine integers *)

Module Machine.

Definition u32 (z : Z) : Z := z mod 2 ^ 32.

Definition i32 (z : Z) : Z := (z + 2 ^ 31) mod 2 ^ 32 - 2 ^ 31.

Definition umul (a b : Z) : Z := u32 (a * b).
Definition ushl1 (a : Z) : Z := u32 (Z.shiftl a 1).

Definition smul (a b : Z) : Z := i32 (a * b).
Definition sadd (a b : Z) : Z := i32 (a + b).
Definition ssub (a b : Z) : Z := i32 (a - b).

Definition is_u32 (z : Z) : Prop := 0 <= z < 2 ^ 32.
Definition is_i32 (z : Z) : Prop := - 2 ^ 31 <= z < 2 ^ 31.

End Machine.
Import Machine.

(** ** Outcomes of a computation *)

(** The [assert]s of the sources, by place. *)
Inductive assertion : Set :=
| A_power_q_positive      (* power:    assert(q > 0) *)
| A_bezout_r1             (* inverse:  assert(r1 == n*u1 + q*v1) *)
| A_bezout_r2             (* inverse:  assert(r2 == n*u2 + q*v2) *)
| A_r1_nonneg             (* inverse:  assert(r1 >= 0) *)
| A_inverse_product       (* inverse:  assert((n*u1) % q == 1) *)
| A_cursor                (* build_shoup_table: assert(i == t+j) *)
| A_cursor_bound          (* build_shoup_table: assert(i < n) *)
| A_phi_root.             (* main:     assert(power(phi, n, q) == 1) *)

Inductive outcome (A : Type) : Type :=
| Done (a : A)
| Abort (site : assertion)
| Trap
| Diverge.

Arguments Done {A} a.
Arguments Abort {A} site.
Arguments Trap {A}.
Arguments Diverge {A}.

#[global] Instance outcome_ret : MRet outcome := fun A a => Done a.

#[global] Instance outcome_bind : MBind outcome := fun A B k m =>
  match m with
  | Done a => k a
  | Abort s => Abort s
  | Trap => Trap
  | Diverge => Diverge
  end.

Definition assert (site : assertion) (b : bool) : outcome unit :=
  if b then Done tt else Abort site.

(** ** [power]: x^k modulo q *)

(** The body of [while (k != 0)]; [k] loses one bit per iteration, so 32
    iterations empty a [uint32_t]. *)
Fixpoint power_loop (fuel : nat) (y x k q : Z) : outcome Z :=
  if k =? 0 then Done y
  else match fuel with
       | O => Diverge
       | S fuel' =>
           let y' := if Z.land k 1 =? 0 then y else umul y x mod q in
           power_loop fuel' y' (umul x x mod q) (Z.shiftr k 1) q
       end.

Definition power (x k q : Z) : outcome Z :=
  assert A_power_q_positive (0 <? q) ;;
  power_loop 32 1 x k q.


(** ** [inverse]: extended Euclid on [int32_t] *)

Record euclid : Set := Euclid
  { r1 : Z; r2 : Z; u1 : Z; u2 : Z; v1 : Z; v2 : Z }.

(** [r1 = n; u1 = 1; v1 = 0; r2 = q; u2 = 0, v2 = 1;] *)
Definition euclid_init (n q : Z) : euclid :=
  {| r1 := i32 n; u1 := 1; v1 := 0;
     r2 := i32 q; u2 := 0; v2 := 1 |}.

(** The three assertions at the head of the loop body, in [int32_t]. *)
Definition bezout_r1 (n q : Z) (s : euclid) : bool :=
  r1 s =? sadd (smul (i32 n) (u1 s)) (smul (i32 q) (v1 s)).

Definition bezout_r2 (n q : Z) (s : euclid) : bool :=
  r2 s =? sadd (smul (i32 n) (u2 s)) (smul (i32 q) (v2 s)).

Definition euclid_asserts (n q : Z) (s : euclid) : outcome unit :=
  assert A_bezout_r1 (bezout_r1 n q s) ;;
  assert A_bezout_r2 (bezout_r2 n q s) ;;
  assert A_r1_nonneg (0 <=? r1 s).

(** [g = r1/r2; x = r1; r1 = r2; r2 = x - g * r2;] and the same for the
    two coefficient pairs.  [/] truncates; [r2 > 0] here. *)
Definition euclid_step (s : euclid) : euclid :=
  let g := Z.quot (r1 s) (r2 s) in
  {| r1 := r2 s; r2 := ssub (r1 s) (smul g (r2 s));
     u1 := u2 s; u2 := ssub (u1 s) (smul g (u2 s));
     v1 := v2 s; v2 := ssub (v1 s) (smul g (v2 s)) |}.

Fixpoint inverse_loop (fuel : nat) (n q : Z) (s : euclid) : outcome euclid :=
  if 0 <? r2 s then
    match fuel with
    | O => Diverge
    | S fuel' =>
        euclid_asserts n q s ;;
        inverse_loop fuel' n q (euclid_step s)
    end
  else Done s.

Definition srem (a b : Z) : outcome Z :=
  if b =? 0 then Trap else Done (Z.rem a b).

(** The code after the loop, from the final state: [Some v] is
    [*inv_n = v; return true], [None] is [return false]. *)
Definition inverse_finish (n q : Z) (s : euclid) : outcome (option Z) :=
  if r1 s =? 1 then
    u ← srem (u1 s) (i32 q);
    let u := if u <? 0 then i32 (u32 (u32 u + q)) else u in
    p ← srem (smul (i32 n) u) (i32 q);
    assert A_inverse_product (p =? 1) ;;
    Done (Some (u32 u))
  else Done None.

(** [r2] decreases at every iteration, so its first value bounds the
    number of iterations. *)
Definition inverse (n q : Z) : outcome (option Z) :=
  s ← inverse_loop (S (Z.to_nat (i32 q))) n q (euclid_init n q);
  inverse_finish n q s.

(** ** [power_table]: the entries (x * b^i) mod q, i = 0 .. n-1 *)

(** The values that [for (i=0; i<n; i++)] prints, in order. *)
Fixpoint power_table_entries (count : nat) (x b q : Z) : list Z :=
  match count with
  | O => []
  | S count' => x :: power_table_entries count' (umul x b mod q) b q
  end.

Inductive table_name : Set :=
| psi_powers_ntt
| inv_psi_powers_ntt
| scaled_inv_psi_powers_ntt
| shoup_ntt.

(** A printed constant array: its name with the two numbers that the
    name carries, its declared size and its entries. *)
Record table : Set := Table
  { t_name : table_name; t_q : Z; t_n : Z; t_entries : list Z }.

Definition power_table (name : table_name) (n q x b : Z) : table :=
  {| t_name := name; t_q := q; t_n := n;
     t_entries := power_table_entries (Z.to_nat n) x b q |}.

Definition psi_power_table (n q psi : Z) : table :=
  power_table psi_powers_ntt n q 1 psi.

Definition inv_psi_power_table (n q inv_psi : Z) : table :=
  power_table inv_psi_powers_ntt n q 1 inv_psi.

Definition scaled_inv_psi_power_table (n q inv_psi inv_n : Z) : table :=
  power_table scaled_inv_psi_powers_ntt n q inv_n inv_psi.

(** ** [build_shoup_table] *)

(** One store [a[i] = x], with the loop variables at that moment. *)
Record store : Set := Store
  { s_t : Z; s_j : Z; s_index : Z; s_value : Z }.

(** The array, the cursor [i] and the stores made so far (oldest first). *)
Record shoup : Set := Shoup
  { arr : list Z; cursor : Z; trace : list store }.

Definition array_set (a : list Z) (i x : Z) : outcome (list Z) :=
  if (0 <=? i) && (i <? Z.of_nat (length a))
  then Done (<[Z.to_nat i := x]> a)
  else Trap.

Definition udiv (a b : Z) : outcome Z :=
  if b =? 0 then Trap else Done (a / b).

(** [for (j=0; j<t; j++)] with [count] iterations left. *)
Fixpoint shoup_stage (count : nat) (n q t y j x : Z) (st : shoup)
  : outcome shoup :=
  match count with
  | O => Done st
  | S count' =>
      let i := cursor st in
      assert A_cursor (i =? u32 (t + j)) ;;
      assert A_cursor_bound (i <? n) ;;
      a' ← array_set (arr st) i x;
      shoup_stage count' n q t y (u32 (j + 1)) (umul x y mod q)
        {| arr := a'; cursor := u32 (i + 1);
           trace := trace st ++ [Store t j i x] |}
  end.

(** [for (t=1; t<n; t <<= 1)]; [t] doubles, so 32 iterations exhaust a
    [uint32_t]. *)
Fixpoint shoup_stages (fuel : nat) (n q phi t : Z) (st : shoup)
  : outcome shoup :=
  if t <? n then
    match fuel with
    | O => Diverge
    | S fuel' =>
        e ← udiv n (umul 2 t);
        y ← power phi e q;
        st' ← shoup_stage (Z.to_nat t) n q t y 0 1 st;
        shoup_stages fuel' n q phi (ushl1 t) st'
    end
  else Done st.

Definition build_shoup_table (a : list Z) (n q phi : Z) : outcome shoup :=
  a0 ← array_set a 0 0;
  shoup_stages 32 n q phi 1 {| arr := a0; cursor := 1; trace := [] |}.

Definition print_table (name : table_name) (a : list Z) (n q : Z) : table :=
  {| t_name := name; t_q := q; t_n := n;
     t_entries := take (Z.to_nat n) a |}.

(** ** The process: two output streams and an exit status *)

(** What the tools write to [stderr], one constructor per [fprintf]. *)
Inductive message : Set :=
| Usage
| Invalid_modulus (x : Z)
| Modulus_too_large
| Invalid_size (x : Z)
| Size_too_large
| Psi_out_of_range (q_minus_1 : Z)
| Not_root_of_minus_one (psi i : Z)
| Not_primitive (phi : Z)
| Not_primitive_exponent
| Size_not_invertible (n q : Z)
| Psi_not_invertible (q : Z)
| Allocation_failed (n : Z)
| Parameters
| Param_q (q : Z)
| Param_n (n : Z)
| Param_psi (psi : Z)
| Param_phi (phi : Z)
| Param_inv_psi (inv_psi : Z)
| Param_inv_psi_square (v : Z)
| Param_inv_n (inv_n : Z).

Record console : Set := Console
  { stderr : list message; stdout : list table }.

Definition console_empty : console := {| stderr := []; stdout := [] |}.

Inductive flow (A : Type) : Type :=
| Next (a : A)
| Exited (status : Z)
| Aborted (site : assertion)
| Trapped
| Diverged.

Arguments Next {A} a.
Arguments Exited {A} status.
Arguments Aborted {A} site.
Arguments Trapped {A}.
Arguments Diverged {A}.

Definition proc (A : Type) : Type := console -> flow A * console.

#[global] Instance proc_ret : MRet proc := fun A a c => (Next a, c).

#[global] Instance proc_bind : MBind proc := fun A B k m c =>
  match m c with
  | (Next a, c') => k a c'
  | (Exited st, c') => (Exited st, c')
  | (Aborted s, c') => (Aborted s, c')
  | (Trapped, c') => (Trapped, c')
  | (Diverged, c') => (Diverged, c')
  end.

Definition lift {A : Type} (m : outcome A) : proc A := fun c =>
  (match m with
   | Done a => Next a
   | Abort s => Aborted s
   | Trap => Trapped
   | Diverge => Diverged
   end, c).

Definition eprint (m : message) : proc unit := fun c =>
  (Next tt, {| stderr := stderr c ++ [m]; stdout := stdout c |}).

Definition print (t : table) : proc unit := fun c =>
  (Next tt, {| stderr := stderr c; stdout := stdout c ++ [t] |}).

Definition exit {A : Type} (status : Z) : proc A := fun c => (Exited status, c).

Definition EXIT_FAILURE : Z := 1.

(** ** The argument checks and root checks shared by both [main]s *)

(** [x = atol(argv[1]); ... q = (uint32_t) x;] *)
Definition read_modulus (x : Z) : proc Z :=
  if x <=? 1 then eprint (Invalid_modulus x) ;; exit EXIT_FAILURE
  else if x >=? 65535 then eprint Modulus_too_large ;; exit EXIT_FAILURE
  else mret (u32 x).

Definition read_size (x : Z) : proc Z :=
  if x <=? 1 then eprint (Invalid_size x) ;; exit EXIT_FAILURE
  else if x >=? 100000 then eprint Size_too_large ;; exit EXIT_FAILURE
  else mret (u32 x).

Definition read_psi (x q : Z) : proc Z :=
  if (x <=? 1) || (x >=? q)
  then eprint (Psi_out_of_range (u32 (q - 1))) ;; exit EXIT_FAILURE
  else mret (u32 x).

(** [i = power(psi, n, q); if (i != q-1) ...; assert(power(phi, n, q) == 1);] *)
Definition check_root (q n psi phi : Z) : proc unit :=
  i ← lift (power psi n q);
  if negb (i =? u32 (q - 1))
  then eprint (Not_root_of_minus_one psi i) ;; exit EXIT_FAILURE
  else
    p ← lift (power phi n q);
    lift (assert A_phi_root (p =? 1)).

(** [for (i=1; i<n; i++) if (power(psi, i, q) == 1) ...] with [count]
    iterations left. *)
Fixpoint check_primitive (count : nat) (i q psi phi : Z) : proc unit :=
  match count with
  | O => mret tt
  | S count' =>
      p ← lift (power psi i q);
      if p =? 1
      then eprint (Not_primitive phi) ;;
           eprint Not_primitive_exponent ;;
           exit EXIT_FAILURE
      else check_primitive count' (u32 (i + 1)) q psi phi
  end.

Definition check_size_invertible (n q : Z) : proc Z :=
  r ← lift (inverse n q);
  match r with
  | Some inv_n => mret inv_n
  | None => eprint (Size_not_invertible n q) ;; exit EXIT_FAILURE
  end.

Definition check_psi_invertible (psi q : Z) : proc Z :=
  r ← lift (inverse psi q);
  match r with
  | Some inv_psi => mret inv_psi
  | None => eprint (Psi_not_invertible q) ;; exit EXIT_FAILURE
  end.

(** ** [main] of psi_power_tables.c *)

Module PsiPowerTables.

Definition main (args : list Z) : proc Z :=
  match args with
  | [x1; x2; x3] =>
      q ← read_modulus x1;
      n ← read_size x2;
      psi ← read_psi x3 q;
      let phi := umul psi psi mod q in
      check_root q n psi phi ;;
      check_primitive (Z.to_nat (n - 1)) 1 q psi phi ;;
      inv_n ← check_size_invertible n q;
      inv_psi ← check_psi_invertible psi q;
      eprint Parameters ;;
      eprint (Param_q q) ;;
      eprint (Param_n n) ;;
      eprint (Param_psi psi) ;;
      eprint (Param_phi phi) ;;
      eprint (Param_inv_psi inv_psi) ;;
      eprint (Param_inv_psi_square (umul inv_psi inv_psi mod q)) ;;
      eprint (Param_inv_n inv_n) ;;
      print (psi_power_table n q psi) ;;
      print (inv_psi_power_table n q inv_psi) ;;
      print (scaled_inv_psi_power_table n q inv_psi inv_n) ;;
      mret 0
  | _ => eprint Usage ;; exit EXIT_FAILURE
  end.

Definition run (args : list Z) : flow Z * console := main args console_empty.

End PsiPowerTables.

(** ** [main] of shoup_tables.c *)

Module ShoupTables.

(** [block] is what [malloc(n * sizeof(uint32_t))] returns: [None] for
    NULL, otherwise the cells of the fresh block, of any content. *)
Definition main (block : option (list Z)) (args : list Z) : proc Z :=
  match args with
  | [x1; x2; x3] =>
      q ← read_modulus x1;
      n ← read_size x2;
      psi ← read_psi x3 q;
      let phi := umul psi psi mod q in
      check_root q n psi phi ;;
      check_primitive (Z.to_nat (n - 1)) 1 q psi phi ;;
      inv_n ← check_size_invertible n q;
      eprint Parameters ;;
      eprint (Param_q q) ;;
      eprint (Param_n n) ;;
      eprint (Param_psi psi) ;;
      eprint (Param_phi phi) ;;
      eprint (Param_inv_n inv_n) ;;
      match block with
      | None => eprint (Allocation_failed n) ;; exit EXIT_FAILURE
      | Some cells =>
          st ← lift (build_shoup_table cells n q phi);
          print (print_table shoup_ntt (arr st) n q) ;;
          mret 0
      end
  | _ => eprint Usage ;; exit EXIT_FAILURE
  end.

Definition run (block : option (list Z)) (args : list Z) : flow Z * console :=
  main block args console_empty.

End ShoupTables.

(** ** Predicates used in the statements *)


(** The loop invariant of [inverse]: the two Bezout identities over the
    integers, the gcd of the remainders, and the coefficients of [n] (resp.
    [q]) alternating in sign with absolute values [a1], [a2] (resp. [b1],
    [b2]) tied to the remainders. *)
Definition euclid_inv (n q : Z) (s : euclid) : Prop :=
  0 < r1 s < 2 ^ 31 /\ 0 <= r2 s < 2 ^ 31 /\
  r1 s = n * u1 s + q * v1 s /\
  r2 s = n * u2 s + q * v2 s /\
  Z.gcd (r1 s) (r2 s) = Z.gcd n q /\
  exists e a1 a2 b1 b2,
    (e = 1 \/ e = -1) /\ 0 <= a1 /\ 0 <= a2 /\ 0 <= b1 /\ 0 <= b2 /\
    u1 s = e * a1 /\ u2 s = - e * a2 /\
    v1 s = - e * b1 /\ v2 s = e * b2 /\
    a1 * r2 s + a2 * r1 s = q /\
    b1 * r2 s + b2 * r1 s = n.

(** The messages that report a failed check, as opposed to the lines of
    the parameter summary. *)
Definition is_diagnostic (m : message) : bool :=
  match m with
  | Parameters | Param_q _ | Param_n _ | Param_psi _ | Param_phi _
  | Param_inv_psi _ | Param_inv_psi_square _ | Param_inv_n _ => false
  | _ => true
  end.

(** A step that starts on console [c] ends the process in rejection:
    [exit(EXIT_FAILURE)] after writing diagnostics, and nothing else, to
    [stderr], with [stdout] as it was. *)
Definition rejects {A : Type} (r : flow A * console) (c : console) : Prop :=
  exists ds, ds <> [] /\ forallb is_diagnostic ds = true /\
    r = (Exited EXIT_FAILURE, {| stderr := stderr c ++ ds; stdout := stdout c |}).

(** The conditions under which a [main] takes one of its failure
    branches, on the command line [args]: the argument count, the three
    range checks, the root check, the primitivity check and the two
    invertibility checks. *)
Inductive check_fails : list Z -> Prop :=
| fails_usage args :
    length args <> 3%nat -> check_fails args
| fails_modulus_small x1 x2 x3 :
    x1 <= 1 -> check_fails [x1; x2; x3]
| fails_modulus_large x1 x2 x3 :
    65535 <= x1 -> check_fails [x1; x2; x3]
| fails_size_small x1 x2 x3 :
    x2 <= 1 -> check_fails [x1; x2; x3]
| fails_size_large x1 x2 x3 :
    100000 <= x2 -> check_fails [x1; x2; x3]
| fails_psi_range x1 x2 x3 :
    x3 <= 1 \/ x1 <= x3 -> check_fails [x1; x2; x3]
| fails_root x1 x2 x3 i :
    power x3 x2 x1 = Done i -> i <> x1 - 1 -> check_fails [x1; x2; x3]
| fails_primitive x1 x2 x3 i :
    1 <= i < x2 -> power x3 i x1 = Done 1 -> check_fails [x1; x2; x3]
| fails_size_inverse x1 x2 x3 :
    inverse x2 x1 = Done None -> check_fails [x1; x2; x3]
| fails_psi_inverse x1 x2 x3 :
    inverse x3 x1 = Done None -> check_fails [x1; x2; x3].

(** The command lines that pass the range checks, the root check and the
    primitivity check. *)
Definition root_checked (x1 x2 x3 : Z) : Prop :=
  1 < x1 < 65535 /\ 1 < x2 < 100000 /\ 1 < x3 < x1 /\
  power x3 x2 x1 = Done (x1 - 1) /\
  (forall i, 1 <= i < x2 -> power x3 i x1 <> Done 1).

(** What each [main] does on a command line that passed the root checks
    (the console is still empty then): the rest of [main], by the results
    of its calls. *)
Definition psi_summary (q n psi phi inv_psi inv_n : Z) : list message :=
  [Parameters; Param_q q; Param_n n; Param_psi psi; Param_phi phi;
   Param_inv_psi inv_psi; Param_inv_psi_square (umul inv_psi inv_psi mod q);
   Param_inv_n inv_n].

Definition psi_tail (q n psi : Z) : flow Z * console :=
  match inverse n q with
  | Done (Some inv_n) =>
      match inverse psi q with
      | Done (Some inv_psi) =>
          (Next 0,
           {| stderr := psi_summary q n psi (umul psi psi mod q) inv_psi inv_n;
              stdout := [psi_power_table n q psi;
                         inv_psi_power_table n q inv_psi;
                         scaled_inv_psi_power_table n q inv_psi inv_n] |})
      | Done None => (Exited EXIT_FAILURE, Console [Psi_not_invertible q] [])
      | Abort s => (Aborted s, console_empty)
      | Trap => (Trapped, console_empty)
      | Diverge => (Diverged, console_empty)
      end
  | Done None => (Exited EXIT_FAILURE, Console [Size_not_invertible n q] [])
  | Abort s => (Aborted s, console_empty)
  | Trap => (Trapped, console_empty)
  | Diverge => (Diverged, console_empty)
  end.

Definition shoup_summary (q n psi phi inv_n : Z) : list message :=
  [Parameters; Param_q q; Param_n n; Param_psi psi; Param_phi phi;
   Param_inv_n inv_n].

Definition shoup_tail (block : option (list Z)) (q n psi : Z) : flow Z * console :=
  let phi := umul psi psi mod q in
  match inverse n q with
  | Done (Some inv_n) =>
      let summary := shoup_summary q n psi phi inv_n in
      match block with
      | None => (Exited EXIT_FAILURE, Console (summary ++ [Allocation_failed n]) [])
      | Some cells =>
          match build_shoup_table cells n q phi with
          | Done st => (Next 0, Console summary [print_table shoup_ntt (arr st) n q])
          | Abort s => (Aborted s, Console summary [])
          | Trap => (Trapped, Console summary [])
          | Diverge => (Diverged, Console summary [])
          end
      end
  | Done None => (Exited EXIT_FAILURE, Console [Size_not_invertible n q] [])
  | Abort s => (Aborted s, console_empty)
  | Trap => (Trapped, console_empty)
  | Diverge => (Diverged, console_empty)
  end.

(** The stores of one stage of [build_shoup_table], from offset [j] and
    value [x], [count] of them. *)
Fixpoint stage_stores (count : nat) (t j x y q : Z) : list store :=
  match count with
  | O => []
  | S count' =>
      Store t j (t + j) x :: stage_stores count' t (j + 1) (umul x y mod q) y q
  end.

(** A store of stage [t] at offset [j]: the cursor is [t + j], and [t] is
    a power of two below [n]. *)
Definition store_in_stage (n : Z) (w : store) : Prop :=
  s_index w = s_t w + s_j w /\ 0 <= s_j w < s_t w /\ s_t w < n /\
  exists k, 0 <= k /\ s_t w = 2 ^ k.

(** The rest of each [main] after the primitivity loop, as a function of
    the values computed so far. *)
Definition psi_main_rest (q n psi phi : Z) : proc Z :=
  inv_n ← check_size_invertible n q;
  inv_psi ← check_psi_invertible psi q;
  eprint Parameters ;;
  eprint (Param_q q) ;;
  eprint (Param_n n) ;;
  eprint (Param_psi psi) ;;
  eprint (Param_phi phi) ;;
  eprint (Param_inv_psi inv_psi) ;;
  eprint (Param_inv_psi_square (umul inv_psi inv_psi mod q)) ;;
  eprint (Param_inv_n inv_n) ;;
  print (psi_power_table n q psi) ;;
  print (inv_psi_power_table n q inv_psi) ;;
  print (scaled_inv_psi_power_table n q inv_psi inv_n) ;;
  mret 0.

Definition shoup_main_rest (block : option (list Z)) (q n psi phi : Z) : proc Z :=
  inv_n ← check_size_invertible n q;
  eprint Parameters ;;
  eprint (Param_q q) ;;
  eprint (Param_n n) ;;
  eprint (Param_psi psi) ;;
  eprint (Param_phi phi) ;;
  eprint (Param_inv_n inv_n) ;;
  match block with
  | None => eprint (Allocation_failed n) ;; exit EXIT_FAILURE
  | Some cells =>
      st ← lift (build_shoup_table cells n q phi);
      print (print_table shoup_ntt (arr st) n q) ;;
      mret 0
  end.

(** ** The printed text of a table *)

(** The pieces that [power_table] and [print_table] write, one per
    [fprintf]: the declaration line (the name is followed by q, the letter
    n and n in [power_table], and by n, an underscore and q in
    [print_table]; the array size comes last), the indentation that opens
    a line, one entry with its comma, the end of a line, the closing
    brace. *)
Inductive token : Set :=
| Tok_header_q_n (name : table_name) (q n size : Z)
| Tok_header_n_q (name : table_name) (n q size : Z)
| Tok_indent
| Tok_entry (x : Z)
| Tok_newline
| Tok_footer.

(** The body of the loop of [power_table], [count] iterations from the
    column counter [k] and the value [x]; returns what is printed and the
    final [k].  For q > 0 only: with q = 0 the code divides by zero at its
    first [(x * b) % q]. *)
Fixpoint power_table_body (count : nat) (k x b q : Z) : list token * Z :=
  match count with
  | O => ([], k)
  | S count' =>
      let opening := if k =? 0 then [Tok_indent] else [] in
      let k1 := u32 (k + 1) in
      let closing := if k1 =? 8 then [Tok_newline] else [] in
      let k2 := if k1 =? 8 then 0 else k1 in
      let (rest, k') := power_table_body count' k2 (umul x b mod q) b q in
      (opening ++ Tok_entry x :: closing ++ rest, k')
  end.

Definition power_table_text (name : table_name) (n q x b : Z) : list token :=
  let (body, k) := power_table_body (Z.to_nat n) 0 x b q in
  Tok_header_q_n name q n n
  :: body ++ (if 0 <? k then [Tok_newline] else []) ++ [Tok_footer].

(** The body of the loop of [print_table] over the cells [a[0..n-1]]. *)
Fixpoint print_table_body (cells : list Z) (k : Z) : list token * Z :=
  match cells with
  | [] => ([], k)
  | x :: cells' =>
      let opening := if k =? 0 then [Tok_indent] else [] in
      let k1 := u32 (k + 1) in
      let closing := if k1 =? 8 then [Tok_newline] else [] in
      let k2 := if k1 =? 8 then 0 else k1 in
      let (rest, k') := print_table_body cells' k2 in
      (opening ++ Tok_entry x :: closing ++ rest, k')
  end.

Definition print_table_text (name : table_name) (a : list Z) (n q : Z)
  : list token :=
  let (body, k) := print_table_body (take (Z.to_nat n) a) 0 in
  Tok_header_n_q name n q n
  :: body ++ (if 0 <? k then [Tok_newline] else []) ++ [Tok_footer].

(** One printed line: the indentation, the entries, the line end. *)
Definition text_line (row : list Z) : list token :=
  Tok_indent :: map Tok_entry row ++ [Tok_newline].

(** The lines of a printed table: every line but the last has 8 entries,
    the last has between 1 and 8, and together they are [entries]. *)
Definition lines_of (entries : list Z) (rows : list (list Z)) : Prop :=
  concat rows = entries
  /\ Forall (fun r => (1 <= length r <= 8)%nat) rows
  /\ forall i r, (S i < length rows)%nat -> rows !! i = Some r -> length r = 8%nat.

Fixpoint rows_of (fuel : nat) (l : list Z) : list (list Z) :=
  match fuel with
  | O => []
  | S fuel' =>
      match l with
      | [] => []
      | _ => take 8 l :: rows_of fuel' (drop 8 l)
      end
  end.

(** What the loop of a table prints from column 0, with the line end
    that follows the loop when the last line is still open. *)
Definition table_body_text (cells : list Z) : list token :=
  fst (print_table_body cells 0)
  ++ (if 0 <? snd (print_table_body cells 0) then [Tok_newline] else []).

(** * Evaluation on sample inputs *)

Example power_1925_4 : power 1925 4 7681 = Done 7680.
Proof. reflexivity. Qed.

Example inverse_4_7681 : inverse 4 7681 = Done (Some 5761).
Proof. vm_compute. reflexivity. Qed.

Example shoup_7681_8 :
  fst (ShoupTables.run (Some [9; 9; 9; 9; 9; 9; 9; 9]) [7681; 8; 527]) = Next 0
  /\ stdout (snd (ShoupTables.run (Some [9; 9; 9; 9; 9; 9; 9; 9]) [7681; 8; 527]))
     = [Table shoup_ntt 7681 8 [0; 1; 1; 4298; 1; 1213; 4298; 5756]].
Proof. vm_compute. split; reflexivity. Qed.

Example psi_7681_8_2 :
  PsiPowerTables.run [7681; 8; 2]
  = (Exited 1, Console [Not_root_of_minus_one 2 256] []).
Proof. vm_compute. reflexivity. Qed.

(** * Machine arithmetic *)

Lemma u32_small z : 0 <= z < 2 ^ 32 -> u32 z = z.
Proof. intros H. unfold u32. apply Z.mod_small; lia. Qed.

Lemma i32_small z : - 2 ^ 31 <= z < 2 ^ 31 -> i32 z = z.
Proof. intros H. unfold i32. rewrite Z.mod_small; lia. Qed.

Lemma i32_range z : - 2 ^ 31 <= i32 z < 2 ^ 31.
Proof.
  unfold i32. pose proof (Z.mod_pos_bound (z + 2 ^ 31) (2 ^ 32) ltac:(lia)). lia.
Qed.

Lemma i32_add_l a b : i32 (i32 a + b) = i32 (a + b).
Proof.
  unfold i32.
  replace ((a + 2 ^ 31) mod 2 ^ 32 - 2 ^ 31 + b + 2 ^ 31)
    with ((a + 2 ^ 31) mod 2 ^ 32 + b) by ring.
  rewrite Zplus_mod_idemp_l. do 2 f_equal. ring.
Qed.

Lemma i32_add_r a b : i32 (a + i32 b) = i32 (a + b).
Proof. rewrite Z.add_comm, i32_add_l. f_equal. ring. Qed.

Lemma umul_small a b : 0 <= a * b < 2 ^ 32 -> umul a b = a * b.
Proof. apply u32_small. Qed.

Lemma pow_mod_base a k q : 0 < q -> 0 <= k -> (a mod q) ^ k mod q = a ^ k mod q.
Proof. intros Hq Hk. symmetry. apply Zpower_mod. lia. Qed.

Lemma mul_pow_mod a b e q :
  0 < q -> 0 <= e -> (a * (b mod q) ^ e) mod q = (a * b ^ e) mod q.
Proof.
  intros Hq He.
  rewrite <- Z.mul_mod_idemp_r, pow_mod_base, Z.mul_mod_idemp_r by lia.
  reflexivity.
Qed.

Lemma land1_mod2 k : Z.land k 1 = k mod 2.
Proof. change 1 with (Z.ones 1). rewrite Z.land_ones by lia. reflexivity. Qed.

(** * [power] *)

Lemma power_loop_spec fuel : forall y x k q,
  0 < q <= 2 ^ 16 -> 0 <= y < 2 ^ 16 -> 0 <= x < 2 ^ 16 ->
  0 <= k < 2 ^ Z.of_nat fuel ->
  power_loop fuel y x k q = Done (if k =? 0 then y else (y * x ^ k) mod q).
Proof.
  induction fuel as [|fuel IH]; intros y x k q Hq Hy Hx Hk.
  - simpl in *. assert (k = 0) by lia. subst. reflexivity.
  - cbn [power_loop]. destruct (Z.eqb_spec k 0) as [->|Hk0]; [reflexivity|].
    assert (Hxx : umul x x mod q = (x * x) mod q).
    { rewrite umul_small; [reflexivity|nia]. }
    assert (Hyx : umul y x mod q = (y * x) mod q).
    { rewrite umul_small; [reflexivity|nia]. }
    rewrite Hxx, Hyx, land1_mod2, Z.shiftr_div_pow2 by lia.
    change (2 ^ 1) with 2.
    pose proof (Z.div_mod k 2 ltac:(lia)) as Hdm.
    pose proof (Z.mod_pos_bound k 2 ltac:(lia)) as Hb.
    pose proof (Z.mod_pos_bound (x * x) q ltac:(lia)) as Hb1.
    pose proof (Z.mod_pos_bound (y * x) q ltac:(lia)) as Hb2.
    assert (Hk2 : 0 <= k / 2 < 2 ^ Z.of_nat fuel).
    { rewrite Nat2Z.inj_succ, Z.pow_succ_r in Hk by lia.
      split; [apply Z.div_pos; lia | apply Z.div_lt_upper_bound; lia]. }
    rewrite IH; try lia.
    2:{ destruct (k mod 2 =? 0); lia. }
    f_equal.
    assert (Hpow : x ^ k = (x * x) ^ (k / 2) * x ^ (k mod 2)).
    { rewrite Hdm at 1. rewrite Z.pow_add_r, Z.pow_mul_r by lia.
      f_equal. f_equal. lia. }
    destruct (Z.eqb_spec (k / 2) 0) as [E0|E0].
    + assert (k = 1) by lia. subst k. change (1 mod 2 =? 0) with false. cbn iota.
      rewrite Z.pow_1_r. reflexivity.
    + rewrite Hpow, mul_pow_mod by lia.
      destruct (Z.eqb_spec (k mod 2) 0) as [E|E].
      * rewrite E, Z.pow_0_r, Z.mul_1_r. reflexivity.
      * assert (k mod 2 = 1) as -> by lia. rewrite Z.pow_1_r.
        rewrite <- Z.mul_mod_idemp_l, Z.mul_mod_idemp_l by lia.
        rewrite Z.mul_mod_idemp_l by lia. f_equal. ring.
Qed.

Lemma power_eq x k q : 0 < q -> power x k q = power_loop 32 1 x k q.
Proof.
  intros Hq. unfold power.
  destruct (Z.ltb_spec 0 q); [reflexivity | lia].
Qed.

(** [power] on the operands the tools pass: the result is x^k mod q. *)
Lemma power_value x k q :
  2 <= q <= 2 ^ 16 -> 0 <= x < 2 ^ 16 -> 0 <= k < 2 ^ 32 ->
  power x k q = Done (x ^ k mod q).
Proof.
  intros Hq Hx Hk. rewrite power_eq by lia.
  rewrite (power_loop_spec 32) by (change (Z.of_nat 32) with 32; lia).
  destruct (Z.eqb_spec k 0) as [->|_].
  - rewrite Z.pow_0_r, Z.mod_small by lia. reflexivity.
  - rewrite Z.mul_1_l. reflexivity.
Qed.

Lemma power_range x k q v :
  2 <= q <= 2 ^ 16 -> 0 <= x < 2 ^ 16 -> 0 <= k < 2 ^ 32 ->
  power x k q = Done v -> 0 <= v < q.
Proof.
  intros Hq Hx Hk. rewrite power_value by assumption. intros [= <-].
  apply Z.mod_pos_bound. lia.
Qed.




(** * Roots of -1 *)

Lemma root_square_power psi n q :
  2 <= q -> 0 <= n -> psi ^ n mod q = q - 1 -> (psi ^ 2 mod q) ^ n mod q = 1.
Proof.
  intros Hq Hn Hroot.
  rewrite pow_mod_base by lia.
  rewrite <- Z.pow_mul_r, (Z.mul_comm 2 n), Z.pow_mul_r by lia.
  rewrite <- pow_mod_base, Hroot by lia.
  replace ((q - 1) ^ 2) with (1 + (q - 2) * q) by ring.
  rewrite Z.mod_add, Z.mod_small; lia.
Qed.

(** A root of -1 is a unit. *)
Lemma root_is_unit psi n q :
  2 <= q -> 1 <= n -> psi ^ n mod q = q - 1 -> Z.gcd psi q = 1.
Proof.
  intros Hq Hn Hroot.
  assert (H1 : (psi ^ n) ^ 2 mod q = 1).
  { rewrite <- pow_mod_base, Hroot by lia.
    replace ((q - 1) ^ 2) with (1 + (q - 2) * q) by ring.
    rewrite Z.mod_add, Z.mod_small; lia. }
  apply Z.bezout_1_gcd.
  exists (psi ^ (2 * n - 1)), (- ((psi ^ n) ^ 2 / q)).
  pose proof (Z.div_mod ((psi ^ n) ^ 2) q ltac:(lia)) as Hdm.
  rewrite H1 in Hdm.
  assert (Hp : psi ^ (2 * n - 1) * psi = (psi ^ n) ^ 2).
  { rewrite Z.mul_comm, <- Z.pow_succ_r by lia.
    replace (Z.succ (2 * n - 1)) with (n * 2) by lia.
    rewrite Z.pow_mul_r by lia. reflexivity. }
  rewrite Hp. lia.
Qed.

(** * [power_table] *)

Lemma power_table_entries_length count x b q :
  length (power_table_entries count x b q) = count.
Proof. revert x. induction count as [|c IH]; intros x; cbn; [|rewrite IH]; reflexivity. Qed.

Lemma power_table_entries_lookup count : forall x b q (i : nat),
  0 < q <= 2 ^ 16 -> 0 <= x < q -> 0 <= b < q -> (i < count)%nat ->
  power_table_entries count x b q !! i = Some ((x * b ^ Z.of_nat i) mod q).
Proof.
  induction count as [|c IH]; intros x b q i Hq Hx Hb Hi; [lia|].
  destruct i as [|i]; cbn [power_table_entries].
  - cbn. rewrite Z.mul_1_r, Z.mod_small by lia. reflexivity.
  - change ((x :: ?l) !! S i) with (l !! i).
    rewrite umul_small by nia.
    rewrite IH; try lia.
    + rewrite Z.mul_mod_idemp_l by lia. do 2 f_equal.
      rewrite Nat2Z.inj_succ, Z.pow_succ_r by lia. ring.
    + apply Z.mod_pos_bound. lia.
Qed.

(** The recurrence itself: the first entry is [x], and each entry is the
    one before it times [b], in 32 bits, modulo [q]. *)
Lemma power_table_entries_step count x b q (i : nat) a :
  power_table_entries count x b q !! i = Some a ->
  (S i < count)%nat ->
  power_table_entries count x b q !! S i = Some (umul a b mod q).
Proof.
  revert x i. induction count as [|c IH]; intros x i Ha Hi; [lia|].
  destruct i as [|i]; cbn in Ha |- *.
  - injection Ha as <-. destruct c; [lia|]. reflexivity.
  - apply IH; [exact Ha | lia].
Qed.

(** * [inverse] *)

Lemma coefficient_step_bound g ra rb a b c :
  0 <= g -> 0 < rb -> rb * g <= ra -> 0 <= a -> 0 <= b ->
  a * rb + b * ra = c ->
  0 <= g * b /\ a + g * b <= c.
Proof.
  intros Hg Hrb Hle Ha Hb Hc.
  assert (H1 : 0 <= g * b) by (apply Z.mul_nonneg_nonneg; assumption).
  assert (H2 : a * 1 <= a * rb) by (apply Z.mul_le_mono_nonneg_l; lia).
  assert (H3 : g * 1 <= g * rb) by (apply Z.mul_le_mono_nonneg_l; lia).
  assert (H4 : b * g <= b * ra) by (apply Z.mul_le_mono_nonneg_l; lia).
  split; [exact H1 | lia].
Qed.

Section Euclid.

Variables n q : Z.
Hypothesis Hn : 1 <= n < 2 ^ 31.
Hypothesis Hq : 1 <= q < 2 ^ 31.

Lemma euclid_init_inv : euclid_inv n q (euclid_init n q).
Proof.
  unfold euclid_inv, euclid_init; cbn [r1 r2 u1 u2 v1 v2].
  rewrite !i32_small by lia.
  split; [lia|]. split; [lia|]. split; [lia|]. split; [lia|].
  split; [reflexivity|].
  exists 1, 1, 0, 0, 1. lia.
Qed.

Lemma euclid_step_inv s :
  euclid_inv n q s -> 0 < r2 s ->
  euclid_inv n q (euclid_step s) /\ r2 (euclid_step s) < r2 s.
Proof.
  intros (Hr1 & Hr2 & Hb1 & Hb2 & Hgcd & e & a1 & a2 & b1 & b2 &
          He & Ha1 & Ha2 & Hb1' & Hb2' & Eu1 & Eu2 & Ev1 & Ev2 & Ea & Eb) Hpos.
  unfold euclid_step.
  set (g := Z.quot (r1 s) (r2 s)).
  assert (Hg : g = r1 s / r2 s) by (apply Z.quot_div_nonneg; lia).
  clearbody g.
  pose proof (Z.mul_div_le (r1 s) (r2 s) ltac:(lia)) as Hle.
  pose proof (Z.mod_pos_bound (r1 s) (r2 s) ltac:(lia)) as Hmod.
  pose proof (Z.div_mod (r1 s) (r2 s) ltac:(lia)) as Hdm.
  assert (Hg0 : 0 <= g) by (rewrite Hg; apply Z.div_pos; lia).
  rewrite <- Hg in Hle, Hdm.
  assert (Hrem : r1 s - g * r2 s = r1 s mod r2 s) by lia.
  assert (Hga : 0 <= g * a2 /\ a1 + g * a2 <= q).
  { apply (coefficient_step_bound g (r1 s) (r2 s)); lia. }
  assert (Hgb : 0 <= g * b2 /\ b1 + g * b2 <= n).
  { apply (coefficient_step_bound g (r1 s) (r2 s)); lia. }
  assert (Sr : ssub (r1 s) (smul g (r2 s)) = r1 s - g * r2 s).
  { unfold ssub, smul. rewrite (i32_small (g * r2 s)) by lia.
    apply i32_small. lia. }
  assert (Su : ssub (u1 s) (smul g (u2 s)) = e * (a1 + g * a2)).
  { unfold ssub, smul. rewrite Eu1, Eu2.
    rewrite (i32_small (g * (- e * a2))) by (destruct He; subst e; lia).
    rewrite i32_small by (destruct He; subst e; lia). ring. }
  assert (Sv : ssub (v1 s) (smul g (v2 s)) = - e * (b1 + g * b2)).
  { unfold ssub, smul. rewrite Ev1, Ev2.
    rewrite (i32_small (g * (e * b2))) by (destruct He; subst e; lia).
    rewrite i32_small by (destruct He; subst e; lia). ring. }
  cbn [r1 r2 u1 u2 v1 v2]. rewrite Sr, Su, Sv.
  split; [|lia].
  unfold euclid_inv. cbn [r1 r2 u1 u2 v1 v2].
  split; [lia|]. split; [lia|]. split; [exact Hb2|].
  split; [rewrite Hb1, Hb2, Eu1, Eu2, Ev1, Ev2; ring|].
  split.
  { rewrite <- Hgcd, (Z.gcd_comm (r1 s)).
    replace (r1 s - g * r2 s) with (r1 s + (- g) * r2 s) by ring.
    apply Z.gcd_add_mult_diag_r. }
  exists (- e), a2, (a1 + g * a2), b2, (b1 + g * b2).
  split; [lia|]. split; [lia|]. split; [lia|]. split; [lia|]. split; [lia|].
  split; [rewrite Eu2; ring|]. split; [ring|].
  split; [rewrite Ev2; ring|]. split; [ring|].
  split; lia.
Qed.

Lemma euclid_inv_asserts s :
  euclid_inv n q s -> euclid_asserts n q s = Done tt.
Proof.
  intros (Hr1 & Hr2 & Hb1 & Hb2 & _).
  unfold euclid_asserts, bezout_r1, bezout_r2, sadd, smul.
  rewrite !(i32_small n), !(i32_small q) by lia.
  rewrite !i32_add_l, !i32_add_r, <- Hb1, <- Hb2.
  rewrite !i32_small by lia.
  rewrite !Z.eqb_refl. cbn.
  assert ((0 <=? r1 s) = true) as -> by (apply Z.leb_le; lia).
  reflexivity.
Qed.


(** The loop ends, on the bound [r2 < fuel], without a failed
    assertion, in a state with [r2 = 0]. *)
Lemma inverse_loop_ends fuel : forall s,
  euclid_inv n q s -> r2 s < Z.of_nat fuel ->
  exists s', inverse_loop fuel n q s = Done s'
             /\ euclid_inv n q s' /\ r2 s' = 0.
Proof.
  induction fuel as [|fuel IH]; intros s Hinv Hfuel.
  - destruct Hinv as (_ & Hr2 & _). lia.
  - cbn [inverse_loop].
    destruct (Z.ltb_spec 0 (r2 s)) as [Hpos|Hz].
    + rewrite euclid_inv_asserts by assumption. cbn.
      destruct (euclid_step_inv s Hinv Hpos) as [Hinv' Hdec].
      apply IH; [assumption|lia].
    + exists s. split; [reflexivity|]. split; [exact Hinv|].
      destruct Hinv as (_ & Hr2 & _). lia.
Qed.

Lemma euclid_exit_gcd s : euclid_inv n q s -> r2 s = 0 -> r1 s = Z.gcd n q.
Proof.
  intros (Hr1 & _ & _ & _ & Hgcd & _) Hz.
  rewrite <- Hgcd, Hz, Z.gcd_0_r. lia.
Qed.

End Euclid.

Lemma rem_normalize a q :
  2 <= q < 2 ^ 31 ->
  (if Z.rem a q <? 0 then i32 (u32 (u32 (Z.rem a q) + q)) else Z.rem a q)
  = a mod q.
Proof.
  intros Hq.
  pose proof (Z.quot_rem' a q) as Hqr.
  destruct (Z.ltb_spec (Z.rem a q) 0) as [Hneg|Hpos].
  - assert (Ha : a <= 0).
    { destruct (Z.le_gt_cases a 0) as [?|Hgt]; [assumption|].
      pose proof (Z.rem_bound_pos a q ltac:(lia) ltac:(lia)). lia. }
    pose proof (Z.rem_bound_pos_neg a q ltac:(lia) Ha) as Hb.
    assert (Hu : u32 (Z.rem a q) = Z.rem a q + 2 ^ 32).
    { unfold u32. symmetry. apply (Z.mod_unique _ _ (-1)); lia. }
    assert (Hs : u32 (Z.rem a q + 2 ^ 32 + q) = Z.rem a q + q).
    { unfold u32. symmetry. apply (Z.mod_unique _ _ 1); lia. }
    rewrite Hu, Hs, i32_small by lia.
    apply (Z.mod_unique _ _ (Z.quot a q - 1)); lia.
  - assert (Ha : Z.rem a q < q).
    { destruct (Z.le_gt_cases 0 a) as [H0|H0].
      - pose proof (Z.rem_bound_pos a q H0 ltac:(lia)). lia.
      - pose proof (Z.rem_bound_pos_neg a q ltac:(lia) ltac:(lia)). lia. }
    apply (Z.mod_unique _ _ (Z.quot a q)); lia.
Qed.

(** What [inverse] does on operands below 2^31: it tells units from
    non-units, and on a unit it computes the inverse [v] in [0, q); it
    returns [v] when its last assertion, evaluated on [int32_t], holds. *)
Lemma inverse_cases n q :
  1 <= n < 2 ^ 31 -> 2 <= q < 2 ^ 31 ->
  (Z.gcd n q <> 1 /\ inverse n q = Done None)
  \/ (Z.gcd n q = 1 /\
      exists v, 0 <= v < q /\ (n * v) mod q = 1 /\
        inverse n q = if Z.rem (smul n v) q =? 1
                      then Done (Some v) else Abort A_inverse_product).
Proof.
  intros Hn Hq.
  assert (Hq' : 1 <= q < 2 ^ 31) by lia.
  destruct (inverse_loop_ends n q Hn Hq' (S (Z.to_nat (i32 q))) (euclid_init n q))
    as (s & Hrun & Hinv & Hz).
  { apply euclid_init_inv; assumption. }
  { cbn [euclid_init r2]. rewrite i32_small by lia. lia. }
  pose proof (euclid_exit_gcd n q s Hinv Hz) as Hg.
  unfold inverse. rewrite Hrun. cbn. unfold inverse_finish.
  destruct (Z.eqb_spec (r1 s) 1) as [H1|H1].
  - right. split; [lia|].
    exists (u1 s mod q).
    pose proof (Z.mod_pos_bound (u1 s) q ltac:(lia)) as Hv.
    destruct Hinv as (_ & _ & Hb1 & _).
    assert (Hprod : (n * (u1 s mod q)) mod q = 1).
    { rewrite Z.mul_mod_idemp_r by lia.
      replace (n * u1 s) with (1 + (- v1 s) * q) by lia.
      rewrite Z.mod_add, Z.mod_small; lia. }
    split; [exact Hv|]. split; [exact Hprod|].
    unfold srem. rewrite !(i32_small q), (i32_small n) by lia.
    assert ((q =? 0) = false) as -> by (apply Z.eqb_neq; lia).
    cbn. rewrite rem_normalize by lia.
    rewrite (u32_small (u1 s mod q)) by lia.
    destruct (Z.rem (smul n (u1 s mod q)) q =? 1); reflexivity.
  - left. split; [lia | reflexivity].
Qed.

(** A returned value is the inverse. *)
Lemma inverse_sound n q v :
  1 <= n < 2 ^ 31 -> 2 <= q < 2 ^ 31 ->
  inverse n q = Done (Some v) ->
  Z.gcd n q = 1 /\ 0 <= v < q /\ (n * v) mod q = 1.
Proof.
  intros Hn Hq Hrun.
  destruct (inverse_cases n q Hn Hq) as [[_ E]|(Hg & w & Hw & Hp & E)];
    rewrite E in Hrun; [discriminate|].
  destruct (Z.rem (smul n w) q =? 1); [|discriminate].
  injection Hrun as <-. auto.
Qed.

(** On a unit, [inverse] never answers "not invertible". *)
Lemma inverse_unit_not_none n q :
  1 <= n < 2 ^ 31 -> 2 <= q < 2 ^ 31 -> Z.gcd n q = 1 ->
  inverse n q <> Done None.
Proof.
  intros Hn Hq Hg Hrun.
  destruct (inverse_cases n q Hn Hq) as [[Hne _]|(_ & w & _ & _ & E)];
    [contradiction|].
  rewrite E in Hrun. destruct (Z.rem (smul n w) q =? 1); discriminate.
Qed.



(** C3, as amended: for 2 <= q < 2^31 and 1 <= n < q, if gcd(n, q) = 1
    there is v in [0, q) with (n * v) mod q = 1 that [inverse n q] returns
    whenever the product n * v fits [int32_t]; if gcd(n, q) <> 1,
    [inverse n q] returns false, an ordinary return value. *)
Theorem inverse_correct n q :
  2 <= q < 2 ^ 31 -> 1 <= n < q ->
  (Z.gcd n q = 1 ->
     exists v, 0 <= v < q /\ (n * v) mod q = 1 /\
               (n * v < 2 ^ 31 -> inverse n q = Done (Some v)))
  /\ (Z.gcd n q <> 1 -> inverse n q = Done None).
Proof.
  intros Hq Hn.
  destruct (inverse_cases n q ltac:(lia) Hq) as [[Hne E]|(Hg & v & Hv & Hp & E)].
  - split; [contradiction | intros _; exact E].
  - split; [|contradiction].
    intros _. exists v. split; [exact Hv|]. split; [exact Hp|].
    intros Hfit. rewrite E. unfold smul.
    rewrite i32_small by nia.
    rewrite Z.rem_mod_nonneg, Hp by nia. reflexivity.
Qed.

Lemma inverse_correct_witness :
  (Z.gcd 4 7681 = 1 ->
     exists v, 0 <= v < 7681 /\ (4 * v) mod 7681 = 1 /\
               (4 * v < 2 ^ 31 -> inverse 4 7681 = Done (Some v)))
  /\ (Z.gcd 4 7681 <> 1 -> inverse 4 7681 = Done None).
Proof. apply (inverse_correct 4 7681); lia. Defined.

(** C3, as stated, fails. A modulus q >= 2^31 is negative as [int32_t],
    the loop is skipped and the unit 2 is reported not invertible; and for
    q = 65521, n = 65520 the product n * v = 65520^2 in the last assertion
    leaves [int32_t], so the call aborts instead of returning v = 65520. *)
Lemma inverse_fails_on_units :
  Z.gcd 2 2147483649 = 1 /\ inverse 2 2147483649 = Done None
  /\ Z.gcd 65520 65521 = 1 /\ (65520 * 65520) mod 65521 = 1
  /\ inverse 65520 65521 = Abort A_inverse_product.
Proof. vm_compute. repeat split. Qed.

(** * The process monad and the checks of [main] *)

Lemma proc_bind_unfold {A B : Type} (m : proc A) (k : A -> proc B) c :
  (m ≫= k) c =
  match m c with
  | (Next a, c') => k a c'
  | (Exited st, c') => (Exited st, c')
  | (Aborted s, c') => (Aborted s, c')
  | (Trapped, c') => (Trapped, c')
  | (Diverged, c') => (Diverged, c')
  end.
Proof. reflexivity. Qed.

Lemma rejects_bind {A B : Type} (m : proc A) (k : A -> proc B) c :
  rejects (m c) c -> rejects ((m ≫= k) c) c.
Proof.
  intros (ds & Hne & Hd & E). exists ds. rewrite proc_bind_unfold, E. auto.
Qed.

Lemma rejects_one {A : Type} (d : message) c :
  is_diagnostic d = true ->
  rejects ((eprint d ≫= fun _ => exit (A := A) EXIT_FAILURE) c) c.
Proof.
  intros Hd. exists [d]. split; [discriminate|]. split; [cbn; rewrite Hd; reflexivity|].
  reflexivity.
Qed.

Lemma rejects_empty {A : Type} (r : flow A * console) :
  rejects r console_empty ->
  exists c, r = (Exited EXIT_FAILURE, c) /\ stdout c = [] /\ stderr c <> []
            /\ forallb is_diagnostic (stderr c) = true.
Proof.
  intros (ds & Hne & Hd & ->). eexists. split; [reflexivity|]. cbn. auto.
Qed.

Lemma read_modulus_cases x c :
  (1 < x < 65535 /\ read_modulus x c = (Next x, c))
  \/ (~ 1 < x < 65535 /\ rejects (read_modulus x c) c).
Proof.
  unfold read_modulus.
  destruct (Z.leb_spec x 1); [right; split; [lia | by apply rejects_one]|].
  destruct (Z.geb_spec x 65535); [right; split; [lia | by apply rejects_one]|].
  left. split; [lia|]. cbn. rewrite u32_small by lia. reflexivity.
Qed.

Lemma read_size_cases x c :
  (1 < x < 100000 /\ read_size x c = (Next x, c))
  \/ (~ 1 < x < 100000 /\ rejects (read_size x c) c).
Proof.
  unfold read_size.
  destruct (Z.leb_spec x 1); [right; split; [lia | by apply rejects_one]|].
  destruct (Z.geb_spec x 100000); [right; split; [lia | by apply rejects_one]|].
  left. split; [lia|]. cbn. rewrite u32_small by lia. reflexivity.
Qed.

Lemma read_psi_cases x q c :
  1 < q < 65535 ->
  (1 < x < q /\ read_psi x q c = (Next x, c))
  \/ (~ 1 < x < q /\ rejects (read_psi x q c) c).
Proof.
  intros Hq. unfold read_psi.
  destruct (Z.leb_spec x 1); cbn [orb];
    [right; split; [lia | by apply rejects_one]|].
  destruct (Z.geb_spec x q); [right; split; [lia | by apply rejects_one]|].
  left. split; [lia|]. cbn. rewrite u32_small by lia. reflexivity.
Qed.

Lemma phi_value psi q :
  1 < q < 65535 -> 1 < psi < q ->
  umul psi psi mod q = psi ^ 2 mod q /\ 0 <= umul psi psi mod q < q.
Proof.
  intros Hq Hpsi. rewrite umul_small by nia.
  split; [f_equal; ring | apply Z.mod_pos_bound; lia].
Qed.

Lemma check_root_cases q n psi c :
  1 < q < 65535 -> 1 < n < 100000 -> 1 < psi < q ->
  (power psi n q = Done (q - 1)
   /\ check_root q n psi (umul psi psi mod q) c = (Next tt, c))
  \/ ((exists i, power psi n q = Done i /\ i <> q - 1)
      /\ rejects (check_root q n psi (umul psi psi mod q) c) c).
Proof.
  intros Hq Hn Hpsi.
  destruct (phi_value psi q Hq Hpsi) as [Hphi Hphib].
  pose proof (power_value psi n q ltac:(lia) ltac:(lia) ltac:(lia)) as Hp.
  unfold check_root. rewrite proc_bind_unfold, Hp. cbn [lift].
  rewrite (u32_small (q - 1)) by lia.
  destruct (Z.eqb_spec (psi ^ n mod q) (q - 1)) as [E|E]; cbn [negb].
  - left. split; [rewrite E; reflexivity|].
    rewrite proc_bind_unfold.
    rewrite (power_value _ n q) by lia.
    rewrite Hphi, root_square_power by lia. reflexivity.
  - right. split; [eauto|]. by apply rejects_one.
Qed.

Lemma check_primitive_cases q psi phi count : forall i c,
  1 < q < 65535 -> 1 < psi < q -> 1 <= i -> i + Z.of_nat count <= 100000 ->
  ((forall j, i <= j < i + Z.of_nat count -> power psi j q <> Done 1)
   /\ check_primitive count i q psi phi c = (Next tt, c))
  \/ ((exists j, i <= j < i + Z.of_nat count /\ power psi j q = Done 1)
      /\ rejects (check_primitive count i q psi phi c) c).
Proof.
  induction count as [|count IH]; intros i c Hq Hpsi Hi Hb.
  - left. split; [intros j Hj; lia | reflexivity].
  - cbn [check_primitive]. rewrite proc_bind_unfold.
    pose proof (power_value psi i q ltac:(lia) ltac:(lia) ltac:(lia)) as Hp.
    rewrite Hp. cbn [lift].
    destruct (Z.eqb_spec (psi ^ i mod q) 1) as [E|E].
    + right. split; [exists i; split; [lia | rewrite Hp, E; reflexivity]|].
      exists [Not_primitive phi; Not_primitive_exponent].
      split; [discriminate|]. split; [reflexivity|].
      unfold mbind, proc_bind, eprint, exit. cbn. rewrite <- app_assoc. reflexivity.
    + rewrite u32_small by lia.
      destruct (IH (i + 1) c Hq Hpsi ltac:(lia) ltac:(lia)) as [[Hall E']|[(j & Hj & Hj1) R]].
      * left. split; [|exact E'].
        intros j Hj. destruct (Z.eq_dec j i) as [->|Hne].
        -- rewrite Hp. intros [= H1]. contradiction.
        -- apply Hall. lia.
      * right. split; [exists j; split; [lia | exact Hj1] | exact R].
Qed.

(** The checks up to the primitivity loop, as both [main]s run them from
    the empty console: the command line is rejected, or it passes and the
    console is still empty. *)
Lemma root_checks_cases x1 x2 x3 {A : Type} (k : Z -> Z -> Z -> Z -> proc A) :
  let m : proc A :=
    q ← read_modulus x1;
    n ← read_size x2;
    psi ← read_psi x3 q;
    let phi := umul psi psi mod q in
    check_root q n psi phi ;;
    check_primitive (Z.to_nat (n - 1)) 1 q psi phi ;;
    k q n psi phi in
  (~ root_checked x1 x2 x3 /\ rejects (m console_empty) console_empty)
  \/ (root_checked x1 x2 x3
      /\ m console_empty = k x1 x2 x3 (umul x3 x3 mod x1) console_empty).
Proof.
  intros m. subst m. unfold root_checked.
  rewrite proc_bind_unfold.
  destruct (read_modulus_cases x1 console_empty) as [[Hq ->]|[Hq R]];
    [|left; split; [tauto | rewrite <- proc_bind_unfold; by apply rejects_bind]].
  rewrite proc_bind_unfold.
  destruct (read_size_cases x2 console_empty) as [[Hn ->]|[Hn R]];
    [|left; split; [tauto | rewrite <- proc_bind_unfold; by apply rejects_bind]].
  rewrite proc_bind_unfold.
  destruct (read_psi_cases x3 x1 console_empty Hq) as [[Hpsi ->]|[Hpsi R]];
    [|left; split; [tauto | rewrite <- proc_bind_unfold; by apply rejects_bind]].
  cbv zeta. rewrite proc_bind_unfold.
  destruct (check_root_cases x1 x2 x3 console_empty Hq Hn Hpsi)
    as [[Hroot ->]|[(i & Hi & Hne) R]].
  2:{ left. split; [|rewrite <- proc_bind_unfold; by apply rejects_bind].
      intros (_ & _ & _ & Hr & _). rewrite Hr in Hi. injection Hi as <-. lia. }
  rewrite proc_bind_unfold.
  destruct (check_primitive_cases x1 x3 (umul x3 x3 mod x1) (Z.to_nat (x2 - 1))
              1 console_empty Hq Hpsi ltac:(lia) ltac:(lia))
    as [[Hprim ->]|[(j & Hj & Hj1) R]].
  2:{ left. split; [|rewrite <- proc_bind_unfold; by apply rejects_bind].
      intros (_ & _ & _ & _ & Hp). apply (Hp j); [lia | exact Hj1]. }
  right. split; [|reflexivity].
  repeat split; try lia; try assumption.
  intros i Hi. apply Hprim. lia.
Qed.

(** * The two [main]s *)

(** After check 1, [psi] is a unit and [inverse] cannot answer "not
    invertible" on it. *)
Lemma psi_not_invertible_unreachable x1 x2 x3 :
  root_checked x1 x2 x3 -> inverse x3 x1 <> Done None.
Proof.
  intros (Hq & Hn & Hpsi & Hroot & _).
  rewrite power_value in Hroot by lia. injection Hroot as Hroot.
  apply inverse_unit_not_none; try lia.
  apply (root_is_unit x3 x2 x1); [lia | lia | exact Hroot].
Qed.

Lemma inverse_abort_site n q s :
  1 <= n < 2 ^ 31 -> 2 <= q < 2 ^ 31 ->
  inverse n q = Abort s -> s = A_inverse_product.
Proof.
  intros Hn Hq E.
  destruct (inverse_cases n q Hn Hq) as [[_ E']|(_ & v & _ & _ & E')];
    rewrite E' in E; [discriminate|].
  destruct (Z.rem (smul n v) q =? 1); [discriminate|]. by injection E as <-.
Qed.

Lemma psi_run_cases x1 x2 x3 :
  (~ root_checked x1 x2 x3
   /\ rejects (PsiPowerTables.run [x1; x2; x3]) console_empty)
  \/ (root_checked x1 x2 x3
      /\ PsiPowerTables.run [x1; x2; x3] = psi_tail x1 x2 x3).
Proof.
  unfold PsiPowerTables.run, PsiPowerTables.main.
  destruct (root_checks_cases x1 x2 x3 (fun q n psi phi =>
    inv_n ← check_size_invertible n q;
    inv_psi ← check_psi_invertible psi q;
    eprint Parameters ;;
    eprint (Param_q q) ;;
    eprint (Param_n n) ;;
    eprint (Param_psi psi) ;;
    eprint (Param_phi phi) ;;
    eprint (Param_inv_psi inv_psi) ;;
    eprint (Param_inv_psi_square (umul inv_psi inv_psi mod q)) ;;
    eprint (Param_inv_n inv_n) ;;
    print (psi_power_table n q psi) ;;
    print (inv_psi_power_table n q inv_psi) ;;
    print (scaled_inv_psi_power_table n q inv_psi inv_n) ;;
    mret 0)) as [[Hno R]|[Hok E]].
  - left. split; [exact Hno | exact R].
  - right. split; [exact Hok|].
    etransitivity; [exact E|].
    unfold psi_tail, check_size_invertible, check_psi_invertible.
    destruct (inverse x2 x1) as [[inv_n|]|s| |]; try reflexivity.
    destruct (inverse x3 x1) as [[inv_psi|]|s| |]; reflexivity.
Qed.

Lemma shoup_run_cases block x1 x2 x3 :
  (~ root_checked x1 x2 x3
   /\ rejects (ShoupTables.run block [x1; x2; x3]) console_empty)
  \/ (root_checked x1 x2 x3
      /\ ShoupTables.run block [x1; x2; x3] = shoup_tail block x1 x2 x3).
Proof.
  unfold ShoupTables.run, ShoupTables.main.
  destruct (root_checks_cases x1 x2 x3 (fun q n psi phi =>
    inv_n ← check_size_invertible n q;
    eprint Parameters ;;
    eprint (Param_q q) ;;
    eprint (Param_n n) ;;
    eprint (Param_psi psi) ;;
    eprint (Param_phi phi) ;;
    eprint (Param_inv_n inv_n) ;;
    match block with
    | None => eprint (Allocation_failed n) ;; exit EXIT_FAILURE
    | Some cells =>
        st ← lift (build_shoup_table cells n q phi);
        print (print_table shoup_ntt (arr st) n q) ;;
        mret 0
    end)) as [[Hno R]|[Hok E]].
  - left. split; [exact Hno | exact R].
  - right. split; [exact Hok|].
    etransitivity; [exact E|].
    unfold shoup_tail, check_size_invertible.
    destruct (inverse x2 x1) as [[inv_n|]|s| |]; try reflexivity.
    destruct block as [cells|]; [|reflexivity].
    destruct (build_shoup_table cells x2 x1 _) as [st|s| |]; reflexivity.
Qed.

Lemma check_fails_after_root_checks x1 x2 x3 :
  check_fails [x1; x2; x3] -> root_checked x1 x2 x3 ->
  inverse x2 x1 = Done None.
Proof.
  intros Hf Hok.
  pose proof (psi_not_invertible_unreachable x1 x2 x3 Hok) as Hunit.
  destruct Hok as (Hq & Hn & Hpsi & Hroot & Hprim).
  inversion Hf as [args Hlen|? ? ? H|? ? ? H|? ? ? H|? ? ? H|? ? ? H
                  |? ? ? i Hi Hne|? ? ? i Hi Hp|? ? ? H|? ? ? H]; subst;
    try lia; try (cbn in Hlen; lia).
  - rewrite Hroot in Hi. injection Hi as <-. lia.
  - exfalso. exact (Hprim i Hi Hp).
  - exact H.
  - contradiction.
Qed.

(** C9: on every command line on which a check fails (argument count,
    ranges of the three arguments, root check, primitivity check,
    invertibility checks), each of the two tools ends by
    [exit(EXIT_FAILURE)], a non-zero status, with nothing on [stdout] and
    on [stderr] only the diagnostics of the failure, at least one: the
    run stops at the first failed check and prints no table. *)
Theorem rejected_command_line args block :
  check_fails args ->
  EXIT_FAILURE <> 0
  /\ (exists c, PsiPowerTables.run args = (Exited EXIT_FAILURE, c)
               /\ stdout c = [] /\ stderr c <> []
               /\ forallb is_diagnostic (stderr c) = true)
  /\ (exists c, ShoupTables.run block args = (Exited EXIT_FAILURE, c)
               /\ stdout c = [] /\ stderr c <> []
               /\ forallb is_diagnostic (stderr c) = true).
Proof.
  intros Hf. split; [discriminate|].
  assert (Hargs : (exists x1 x2 x3, args = [x1; x2; x3]) \/ length args <> 3%nat).
  { destruct args as [|x1 [|x2 [|x3 [|x4 rest]]]]; cbn; eauto. }
  destruct Hargs as [(x1 & x2 & x3 & ->)|Hlen].
  - split.
    + destruct (psi_run_cases x1 x2 x3) as [[_ R]|[Hok E]].
      * by apply rejects_empty.
      * rewrite E. unfold psi_tail.
        rewrite (check_fails_after_root_checks x1 x2 x3 Hf Hok).
        eexists. split; [reflexivity|]. cbn. auto.
    + destruct (shoup_run_cases block x1 x2 x3) as [[_ R]|[Hok E]].
      * by apply rejects_empty.
      * rewrite E. unfold shoup_tail.
        rewrite (check_fails_after_root_checks x1 x2 x3 Hf Hok).
        eexists. split; [reflexivity|]. cbn. auto.
  - assert (Hpsi : PsiPowerTables.run args = (Exited EXIT_FAILURE, Console [Usage] [])).
    { destruct args as [|x1 [|x2 [|x3 [|x4 rest]]]]; try reflexivity.
      cbn in Hlen. lia. }
    assert (Hshoup : ShoupTables.run block args
                     = (Exited EXIT_FAILURE, Console [Usage] [])).
    { destruct args as [|x1 [|x2 [|x3 [|x4 rest]]]]; try reflexivity.
      cbn in Hlen. lia. }
    rewrite Hpsi, Hshoup. split; eexists; (split; [reflexivity|]); cbn; auto.
Qed.

Lemma rejected_command_line_witness :
  EXIT_FAILURE <> 0
  /\ (exists c, PsiPowerTables.run [7681; 8; 2] = (Exited EXIT_FAILURE, c)
               /\ stdout c = [] /\ stderr c <> []
               /\ forallb is_diagnostic (stderr c) = true)
  /\ (exists c, ShoupTables.run None [7681; 8; 2] = (Exited EXIT_FAILURE, c)
               /\ stdout c = [] /\ stderr c <> []
               /\ forallb is_diagnostic (stderr c) = true).
Proof.
  apply (rejected_command_line [7681; 8; 2] None).
  apply (fails_root 7681 8 2 256); [reflexivity | lia].
Defined.

(** * The assertion on [phi] *)

Lemma power_loop_no_abort s fuel : forall y x k q,
  power_loop fuel y x k q <> Abort s.
Proof.
  induction fuel as [|fuel IH]; intros y x k q; cbn [power_loop];
    destruct (k =? 0); try discriminate.
  apply IH.
Qed.

Lemma power_abort_site x k q s : power x k q = Abort s -> s = A_power_q_positive.
Proof.
  intros H. destruct (Z.ltb_spec 0 q) as [Hq|Hq].
  - rewrite power_eq in H by lia. by apply power_loop_no_abort in H.
  - unfold power in H.
    assert (E : (0 <? q) = false) by (apply Z.ltb_ge; lia).
    rewrite E in H. change (@Abort Z A_power_q_positive = Abort s) in H.
    by injection H as <-.
Qed.

Lemma shoup_stage_abort_site count : forall n q t y j x st s,
  shoup_stage count n q t y j x st = Abort s -> s <> A_phi_root.
Proof.
  induction count as [|count IH]; intros n q t y j x st s; cbn [shoup_stage];
    [discriminate|].
  destruct (cursor st =? u32 (t + j)); cbn [mbind outcome_bind assert]; [|by intros [= <-]].
  destruct (cursor st <? n); cbn [mbind outcome_bind assert]; [|by intros [= <-]].
  unfold array_set.
  destruct ((0 <=? cursor st) && (cursor st <? Z.of_nat (length (arr st))));
    cbn [mbind outcome_bind assert]; try discriminate.
  apply IH.
Qed.

Lemma shoup_stages_abort_site fuel : forall n q phi t st s,
  shoup_stages fuel n q phi t st = Abort s -> s <> A_phi_root.
Proof.
  induction fuel as [|fuel IH]; intros n q phi t st s; cbn [shoup_stages];
    destruct (t <? n); try discriminate.
  unfold udiv.
  destruct (umul 2 t =? 0); cbn [mbind outcome_bind assert]; try discriminate.
  destruct (power phi (n / umul 2 t) q) as [y|s'| |] eqn:Hp; cbn [mbind outcome_bind assert]; try discriminate.
  2:{ intros [= <-]. apply power_abort_site in Hp. by subst. }
  destruct (shoup_stage (Z.to_nat t) n q t y 0 1 st) as [st'|s'| |] eqn:Hs;
    cbn [mbind outcome_bind assert]; try discriminate.
  - apply IH.
  - intros [= <-]. by apply shoup_stage_abort_site in Hs.
Qed.

Lemma build_shoup_table_abort_site a n q phi s :
  build_shoup_table a n q phi = Abort s -> s <> A_phi_root.
Proof.
  unfold build_shoup_table.
  unfold array_set.
  destruct ((0 <=? 0) && (0 <? Z.of_nat (length a)));
    cbn [mbind outcome_bind assert]; try discriminate.
  apply shoup_stages_abort_site.
Qed.

(** C8: for every q >= 2, n >= 1 and psi in [2, q) with
    psi^n mod q = q - 1, the square phi = psi^2 mod q satisfies
    phi^n mod q = 1; and on no command line does either [main] abort on
    its assertion [power(phi, n, q) == 1]. *)
Theorem phi_assertion_never_fails :
  (forall q n psi,
     2 <= q -> 1 <= n -> 2 <= psi < q ->
     psi ^ n mod q = q - 1 -> (psi ^ 2 mod q) ^ n mod q = 1)
  /\ (forall args, fst (PsiPowerTables.run args) <> Aborted A_phi_root)
  /\ (forall block args, fst (ShoupTables.run block args) <> Aborted A_phi_root).
Proof.
  split; [|split].
  - intros q n psi Hq Hn Hpsi Hroot. apply root_square_power; lia.
  - intros args.
    destruct args as [|x1 [|x2 [|x3 [|x4 rest]]]]; try discriminate.
    destruct (psi_run_cases x1 x2 x3) as [[_ (ds & _ & _ & ->)]|[Hok ->]];
      [discriminate|].
    destruct Hok as (Hq & Hn & Hpsi & _).
    unfold psi_tail.
    destruct (inverse x2 x1) as [[inv_n|]|s| |] eqn:E1; try discriminate.
    + destruct (inverse x3 x1) as [[inv_psi|]|s| |] eqn:E2; try discriminate.
      apply inverse_abort_site in E2; [|lia|lia]. by subst.
    + apply inverse_abort_site in E1; [|lia|lia]. by subst.
  - intros block args.
    destruct args as [|x1 [|x2 [|x3 [|x4 rest]]]]; try discriminate.
    destruct (shoup_run_cases block x1 x2 x3) as [[_ (ds & _ & _ & ->)]|[Hok ->]];
      [discriminate|].
    destruct Hok as (Hq & Hn & Hpsi & _).
    unfold shoup_tail.
    destruct (inverse x2 x1) as [[inv_n|]|s| |] eqn:E1; try discriminate.
    + destruct block as [cells|]; [|discriminate].
      destruct (build_shoup_table cells x2 x1 _) as [st|s| |] eqn:E2;
        try discriminate.
      apply build_shoup_table_abort_site in E2. cbn. congruence.
    + apply inverse_abort_site in E1; [|lia|lia]. by subst.
Qed.

Lemma phi_assertion_never_fails_witness :
  (1925 ^ 2 mod 7681) ^ 4 mod 7681 = 1.
Proof.
  apply (proj1 phi_assertion_never_fails 7681 4 1925); [lia | lia | lia | reflexivity].
Defined.

(** * The tables of psi_power_tables *)

Lemma psi_run_success q n psi r c :
  PsiPowerTables.run [q; n; psi] = (Next r, c) ->
  root_checked q n psi /\
  exists inv_n inv_psi,
    inverse n q = Done (Some inv_n) /\ inverse psi q = Done (Some inv_psi) /\
    r = 0 /\
    stderr c = psi_summary q n psi (umul psi psi mod q) inv_psi inv_n /\
    stdout c = [psi_power_table n q psi;
                inv_psi_power_table n q inv_psi;
                scaled_inv_psi_power_table n q inv_psi inv_n].
Proof.
  intros Hrun.
  destruct (psi_run_cases q n psi) as [[_ (ds & _ & _ & E)]|[Hok E]];
    rewrite E in Hrun; [discriminate|].
  split; [exact Hok|]. unfold psi_tail in Hrun.
  destruct (inverse n q) as [[inv_n|]|s| |]; try discriminate.
  destruct (inverse psi q) as [[inv_psi|]|s| |]; try discriminate.
  injection Hrun as <- <-. exists inv_n, inv_psi. cbn. auto.
Qed.

(** C7: on every command line (q, n, psi) that passes all checks, so
    that [main] returns 0, the first two printed tables are the forward
    and inverse power tables, and for every i in [0, n) their entries a
    and b at i satisfy (a * b) mod q = 1 when i <> 0 and a = b = 1 when
    i = 0. *)
Theorem psi_tables_round_trip q n psi c :
  PsiPowerTables.run [q; n; psi] = (Next 0, c) ->
  exists fwd inv scaled,
    stdout c = [fwd; inv; scaled] /\
    t_name fwd = psi_powers_ntt /\ t_name inv = inv_psi_powers_ntt /\
    forall i, 0 <= i < n ->
      exists a b,
        t_entries fwd !! Z.to_nat i = Some a /\
        t_entries inv !! Z.to_nat i = Some b /\
        (i <> 0 -> (a * b) mod q = 1) /\
        (i = 0 -> a = 1 /\ b = 1).
Proof.
  intros Hrun.
  destruct (psi_run_success q n psi 0 c Hrun)
    as ((Hq & Hn & Hpsi & _) & inv_n & inv_psi & _ & Hinv & _ & _ & Hout).
  destruct (inverse_sound psi q inv_psi ltac:(lia) ltac:(lia) Hinv)
    as (_ & Hv & Hprod).
  do 3 eexists. split; [exact Hout|]. split; [reflexivity|]. split; [reflexivity|].
  intros i Hi. cbn [t_entries psi_power_table inv_psi_power_table power_table].
  rewrite !power_table_entries_lookup by lia.
  rewrite Z2Nat.id, !Z.mul_1_l by lia.
  do 2 eexists. split; [reflexivity|]. split; [reflexivity|]. split.
  - intros _. rewrite <- Z.mul_mod, <- Z.pow_mul_l by lia.
    rewrite <- pow_mod_base, Hprod, Z.pow_1_l, Z.mod_small by lia. reflexivity.
  - intros ->. rewrite !Z.pow_0_r, Z.mod_small by lia. auto.
Qed.

Lemma psi_tables_round_trip_witness :
  exists fwd inv scaled,
    stdout (snd (PsiPowerTables.run [7681; 4; 1925])) = [fwd; inv; scaled] /\
    t_name fwd = psi_powers_ntt /\ t_name inv = inv_psi_powers_ntt /\
    forall i, 0 <= i < 4 ->
      exists a b,
        t_entries fwd !! Z.to_nat i = Some a /\
        t_entries inv !! Z.to_nat i = Some b /\
        (i <> 0 -> (a * b) mod 7681 = 1) /\
        (i = 0 -> a = 1 /\ b = 1).
Proof.
  apply (psi_tables_round_trip 7681 4 1925). vm_compute. reflexivity.
Defined.

(** C4, as amended (the modulus is at most 2^16, so that the product of
    two residues fits 32 bits): for n >= 1, 2 <= q <= 2^16 and x0, b in
    [0, q), the table of [power_table] has n entries, starts at x0,
    each later entry is the one before it times b modulo q, and entry i
    is (x0 * b^i) mod q; and on every command line (q, n, psi) that
    passes all checks, entry i of the forward table is the value of
    [power(psi, i, q)]. *)
Theorem power_table_correct :
  (forall name n q x0 b,
     1 <= n -> 2 <= q <= 2 ^ 16 -> 0 <= x0 < q -> 0 <= b < q ->
     let a := t_entries (power_table name n q x0 b) in
     Z.of_nat (length a) = n
     /\ a !! 0%nat = Some x0
     /\ (forall i v, 1 <= i < n -> a !! Z.to_nat (i - 1) = Some v ->
           a !! Z.to_nat i = Some ((v * b) mod q))
     /\ (forall i, 0 <= i < n -> a !! Z.to_nat i = Some ((x0 * b ^ i) mod q)))
  /\ (forall q n psi c,
        PsiPowerTables.run [q; n; psi] = (Next 0, c) ->
        exists fwd rest,
          stdout c = fwd :: rest /\ t_name fwd = psi_powers_ntt /\
          forall i, 0 <= i < n ->
            exists v, power psi i q = Done v
                      /\ t_entries fwd !! Z.to_nat i = Some v).
Proof.
  split.
  - intros name n q x0 b Hn Hq Hx Hb a. subst a. cbn [t_entries power_table].
    assert (Hlookup : forall i, 0 <= i < n ->
              power_table_entries (Z.to_nat n) x0 b q !! Z.to_nat i
              = Some ((x0 * b ^ i) mod q)).
    { intros i Hi. rewrite power_table_entries_lookup by lia.
      rewrite Z2Nat.id by lia. reflexivity. }
    split; [rewrite power_table_entries_length; lia|].
    split; [change 0%nat with (Z.to_nat 0);
            rewrite (Hlookup 0), Z.pow_0_r, Z.mul_1_r, Z.mod_small by lia;
            reflexivity|].
    split; [|exact Hlookup].
    intros i v Hi Hv.
    rewrite (Hlookup (i - 1)) in Hv by lia. injection Hv as <-.
    rewrite Hlookup by lia.
    rewrite Z.mul_mod_idemp_l by lia. do 2 f_equal.
    replace i with (Z.succ (i - 1)) at 1 by lia.
    rewrite Z.pow_succ_r by lia. ring.
  - intros q n psi c Hrun.
    destruct (psi_run_success q n psi 0 c Hrun)
      as ((Hq & Hn & Hpsi & _) & inv_n & inv_psi & _ & _ & _ & _ & Hout).
    do 2 eexists. split; [exact Hout|]. split; [reflexivity|].
    intros i Hi. exists (psi ^ i mod q).
    split; [apply power_value; lia|].
    cbn [t_entries psi_power_table power_table].
    rewrite power_table_entries_lookup by lia.
    rewrite Z2Nat.id, Z.mul_1_l by lia. reflexivity.
Qed.

Lemma power_table_correct_witness :
  (let a := t_entries (power_table psi_powers_ntt 4 7681 1 1925) in
   Z.of_nat (length a) = 4
   /\ a !! 0%nat = Some 1
   /\ (forall i v, 1 <= i < 4 -> a !! Z.to_nat (i - 1) = Some v ->
         a !! Z.to_nat i = Some ((v * 1925) mod 7681))
   /\ (forall i, 0 <= i < 4 -> a !! Z.to_nat i = Some ((1 * 1925 ^ i) mod 7681)))
  /\ (exists fwd rest,
        stdout (snd (PsiPowerTables.run [7681; 4; 1925])) = fwd :: rest
        /\ t_name fwd = psi_powers_ntt /\
        forall i, 0 <= i < 4 ->
          exists v, power 1925 i 7681 = Done v
                    /\ t_entries fwd !! Z.to_nat i = Some v).
Proof.
  split.
  - apply (proj1 power_table_correct psi_powers_ntt 4 7681 1 1925); lia.
  - apply (proj2 power_table_correct 7681 4 1925). vm_compute. reflexivity.
Defined.

(** C4, as stated, fails for a modulus above 2^16: with q = 65537,
    x0 = 1 and b = 65536 the third entry is (65536 * 65536 mod 2^32) mod q
    = 0, while (x0 * b^2) mod q = 1. *)
Lemma power_table_wraps_above_2_16 :
  2 <= 65537 /\ 0 <= 65536 < 65537
  /\ t_entries (power_table psi_powers_ntt 3 65537 1 65536) = [1; 65536; 0]
  /\ (1 * 65536 ^ 2) mod 65537 = 1.
Proof. vm_compute. repeat split; discriminate. Qed.

(** * The last assertion of [inverse] on a valid root *)

(** C10: the command line (61441, 4, 44853) passes check 1 and the
    primitivity check, 44853 is a unit modulo 61441 with inverse 56274,
    and [inverse(44853, 61441)] computes it; the product 44853 * 56274 in
    its last assertion leaves [int32_t], the assertion fails and [main]
    aborts before it prints anything. *)
Theorem psi_inverse_aborts_on_valid_root :
  power 44853 4 61441 = Done (61441 - 1)
  /\ root_checked 61441 4 44853
  /\ (44853 * 56274) mod 61441 = 1
  /\ 2 ^ 31 <= 44853 * 56274
  /\ inverse 44853 61441 = Abort A_inverse_product
  /\ PsiPowerTables.run [61441; 4; 44853] = (Aborted A_inverse_product, console_empty).
Proof.
  assert (Hroot : power 44853 4 61441 = Done (61441 - 1)) by (vm_compute; reflexivity).
  split; [exact Hroot|]. split.
  { unfold root_checked. repeat split; try lia; try exact Hroot.
    intros i Hi.
    assert (Hc : i = 1 \/ i = 2 \/ i = 3) by lia.
    destruct Hc as [->|[->| ->]]; vm_compute; discriminate. }
  split; [reflexivity|]. split; [vm_compute; discriminate|].
  split; vm_compute; reflexivity.
Qed.

(** * [build_shoup_table] *)

Lemma power_loop_total fuel : forall y x k q,
  0 <= k < 2 ^ Z.of_nat fuel -> exists v, power_loop fuel y x k q = Done v.
Proof.
  induction fuel as [|fuel IH]; intros y x k q Hk; cbn [power_loop].
  - assert (k = 0) as -> by (cbn in Hk; lia). eauto.
  - destruct (Z.eqb_spec k 0); [eauto|].
    apply IH. rewrite Z.shiftr_div_pow2 by lia. change (2 ^ 1) with 2.
    rewrite Nat2Z.inj_succ, Z.pow_succ_r in Hk by lia.
    split; [apply Z.div_pos; lia | apply Z.div_lt_upper_bound; lia].
Qed.

Lemma power_total x k q :
  0 < q -> 0 <= k < 2 ^ 32 -> exists v, power x k q = Done v.
Proof.
  intros Hq Hk. rewrite power_eq by lia.
  apply (power_loop_total 32). exact Hk.
Qed.

Lemma stage_stores_indices count : forall t j x y q,
  map s_index (stage_stores count t j x y q) = seqZ (t + j) (Z.of_nat count).
Proof.
  induction count as [|count IH]; intros t j x y q; [reflexivity|].
  cbn [stage_stores map s_index].
  rewrite IH, (seqZ_cons (t + j)) by lia.
  do 2 f_equal; lia.
Qed.

Lemma stage_stores_in_stage n k count : forall j x y q,
  0 <= k -> 2 ^ k < n -> 0 <= j -> j + Z.of_nat count <= 2 ^ k ->
  Forall (store_in_stage n) (stage_stores count (2 ^ k) j x y q).
Proof.
  induction count as [|count IH]; intros j x y q Hk Hn Hj Hc; [constructor|].
  cbn [stage_stores]. constructor.
  - unfold store_in_stage; cbn. repeat split; try lia. exists k. lia.
  - apply IH; lia.
Qed.

Lemma shoup_stage_run count : forall n q t y j x st,
  0 <= t -> 0 <= j -> cursor st = t + j ->
  t + j + Z.of_nat count <= n -> n < 2 ^ 32 ->
  Z.of_nat (length (arr st)) = n ->
  exists a',
    shoup_stage count n q t y j x st
    = Done {| arr := a'; cursor := t + j + Z.of_nat count;
              trace := trace st ++ stage_stores count t j x y q |}
    /\ length a' = length (arr st)
    /\ (forall k, (k < count)%nat ->
          a' !! (Z.to_nat (t + j) + k)%nat = power_table_entries count x y q !! k)
    /\ (forall idx, (idx < Z.to_nat (t + j))%nat
                    \/ (Z.to_nat (t + j) + count <= idx)%nat ->
          a' !! idx = arr st !! idx).
Proof.
  induction count as [|count IH]; intros n q t y j x st Ht Hj Hcur Hb Hn Hlen.
  - exists (arr st). cbn [shoup_stage stage_stores].
    rewrite app_nil_r, Z.add_0_r, <- Hcur. destruct st; cbn.
    repeat split; auto. intros k Hk. lia.
  - cbn [shoup_stage].
    rewrite (u32_small (t + j)) by lia.
    rewrite Hcur, Z.eqb_refl. cbn [mbind outcome_bind assert].
    assert ((t + j <? n) = true) as -> by (apply Z.ltb_lt; lia). cbn [mbind outcome_bind assert].
    unfold array_set.
    assert ((0 <=? t + j) && (t + j <? Z.of_nat (length (arr st))) = true) as ->.
    { apply andb_true_intro. split; [apply Z.leb_le | apply Z.ltb_lt]; lia. }
    cbn [mbind outcome_bind]. rewrite (u32_small (j + 1)), (u32_small (t + j + 1)) by lia.
    set (a1 := <[Z.to_nat (t + j) := x]> (arr st)).
    destruct (IH n q t y (j + 1) (umul x y mod q)
                {| arr := a1; cursor := t + j + 1;
                   trace := trace st ++ [Store t j (t + j) x] |})
      as (a' & Hrun & Hlen' & Hval & Hsame); cbn [arr cursor trace] in *; try lia.
    { subst a1. rewrite length_insert. lia. }
    exists a'. split.
    { rewrite Hrun. cbn [stage_stores]. rewrite <- app_assoc. cbn.
      do 2 f_equal. lia. }
    split; [rewrite Hlen'; subst a1; apply length_insert|].
    split.
    + intros k Hk. destruct k as [|k].
      * rewrite Hsame by lia. subst a1. rewrite Nat.add_0_r. cbn.
        apply list_lookup_insert_eq. lia.
      * cbn [power_table_entries]. change ((x :: ?l) !! S k) with (l !! k).
        rewrite <- Hval by lia. f_equal. lia.
    + intros idx Hidx. rewrite Hsame by lia. subst a1.
      apply list_lookup_insert_ne. lia.
Qed.

Section Stages.

Variables m q phi : Z.
Hypothesis Hm : 1 <= m <= 31.
Hypothesis Hq : 0 < q.

Let n := 2 ^ m.

Lemma stage_size_bound k : 0 <= k <= m -> 0 < 2 ^ k <= n /\ n < 2 ^ 32.
Proof.
  intros Hk. subst n. split.
  - split; [apply Z.pow_pos_nonneg; lia | apply Z.pow_le_mono_r; lia].
  - apply Z.pow_lt_mono_r; lia.
Qed.

Lemma shoup_stages_run fuel : forall k st,
  0 <= k <= m -> m - k <= Z.of_nat fuel ->
  cursor st = 2 ^ k -> Z.of_nat (length (arr st)) = n ->
  exists st',
    shoup_stages fuel n q phi (2 ^ k) st = Done st'
    /\ cursor st' = n
    /\ length (arr st') = length (arr st)
    /\ (exists ws, trace st' = trace st ++ ws
                   /\ map s_index ws = seqZ (2 ^ k) (n - 2 ^ k)
                   /\ Forall (store_in_stage n) ws)
    /\ (forall idx, (idx < Z.to_nat (2 ^ k))%nat -> arr st' !! idx = arr st !! idx)
    /\ (forall k' j, k <= k' < m -> 0 <= j < 2 ^ k' ->
          exists y, power phi (n / (2 * 2 ^ k')) q = Done y
                    /\ arr st' !! Z.to_nat (2 ^ k' + j)
                       = power_table_entries (Z.to_nat (2 ^ k')) 1 y q !! Z.to_nat j).
Proof.
  induction fuel as [|fuel IH]; intros k st Hk Hfuel Hcur Hlen;
    destruct (stage_size_bound k Hk) as [Ht Hn32]; cbn [shoup_stages].
  - assert (k = m) as -> by lia. fold n.
    rewrite Z.ltb_irrefl. exists st. split; [reflexivity|]. split; [exact Hcur|].
    split; [reflexivity|]. split.
    { exists []. rewrite app_nil_r, Z.sub_diag. repeat split. constructor. }
    split; [reflexivity|]. intros k' j Hk'. lia.
  - destruct (Z.ltb_spec (2 ^ k) n) as [Hlt|Hge].
    2:{ assert (k = m) as ->.
        { destruct (Z.eq_dec k m) as [?|Hne]; [assumption|].
          assert (2 ^ k < 2 ^ m) by (apply Z.pow_lt_mono_r; lia). subst n. lia. }
        exists st. split; [reflexivity|]. split; [exact Hcur|].
        split; [reflexivity|]. split.
        { exists []. fold n. rewrite app_nil_r, Z.sub_diag. repeat split. constructor. }
        split; [reflexivity|]. intros k' j Hk'. lia. }
    assert (Hkm : k < m).
    { destruct (Z.lt_ge_cases k m) as [?|Hge]; [assumption|].
      assert (k = m) as -> by lia. subst n. lia. }
    assert (Hdbl : 2 ^ (k + 1) = 2 * 2 ^ k)
      by (replace (k + 1) with (Z.succ k) by lia; apply Z.pow_succ_r; lia).
    destruct (stage_size_bound (k + 1) ltac:(lia)) as [Ht' _].
    rewrite Hdbl in Ht'.
    rewrite (umul_small 2 (2 ^ k)) by lia.
    unfold udiv.
    assert ((2 * 2 ^ k =? 0) = false) as -> by (apply Z.eqb_neq; lia). cbn [mbind outcome_bind].
    assert (He : 0 <= n / (2 * 2 ^ k) < 2 ^ 32).
    { split; [apply Z.div_pos; lia|].
      apply Z.div_lt_upper_bound; nia. }
    destruct (power_total phi (n / (2 * 2 ^ k)) q Hq He) as [y Hy].
    rewrite Hy. cbn [mbind outcome_bind].
    destruct (shoup_stage_run (Z.to_nat (2 ^ k)) n q (2 ^ k) y 0 1 st)
      as (a' & Hrun & Hlen' & Hval & Hsame); try lia.
    rewrite Hrun. cbn [mbind outcome_bind].
    assert (Hshl : ushl1 (2 ^ k) = 2 ^ (k + 1)).
    { unfold ushl1. rewrite Z.shiftl_mul_pow2 by lia. change (2 ^ 1) with 2.
      rewrite u32_small by lia. lia. }
    rewrite Hshl.
    destruct (IH (k + 1)
                {| arr := a'; cursor := 2 ^ k + 0 + Z.of_nat (Z.to_nat (2 ^ k));
                   trace := trace st ++ stage_stores (Z.to_nat (2 ^ k)) (2 ^ k) 0 1 y q |})
      as (st' & Hrun' & Hcur' & Hlen'' & (ws & Htr & Hidx & Hin) & Hlow & Hvals);
      cbn [arr cursor trace] in *; try lia.
    exists st'. split; [exact Hrun'|]. split; [exact Hcur'|].
    split; [lia|]. split.
    { exists (stage_stores (Z.to_nat (2 ^ k)) (2 ^ k) 0 1 y q ++ ws).
      split; [rewrite Htr, app_assoc; reflexivity|]. split.
      - rewrite map_app, stage_stores_indices, Hidx.
        replace (n - 2 ^ k) with (Z.of_nat (Z.to_nat (2 ^ k)) + (n - 2 ^ (k + 1))) by lia.
        rewrite seqZ_app by lia. do 2 f_equal; lia.
      - apply Forall_app. split; [|exact Hin].
        apply stage_stores_in_stage; lia. }
    split.
    { intros idx Hidx'. rewrite Hlow by lia. apply Hsame. lia. }
    intros k' j Hk' Hj.
    destruct (Z.eq_dec k' k) as [->|Hne].
    + exists y. split; [exact Hy|].
      rewrite Hlow.
      2:{ rewrite Hdbl. lia. }
      rewrite <- Hval by lia. f_equal. lia.
    + apply Hvals; lia.
Qed.

End Stages.

Lemma build_shoup_table_run m q phi a :
  1 <= m <= 31 -> 0 < q -> Z.of_nat (length a) = 2 ^ m ->
  exists st,
    build_shoup_table a (2 ^ m) q phi = Done st
    /\ cursor st = 2 ^ m
    /\ length (arr st) = length a
    /\ arr st !! 0%nat = Some 0
    /\ map s_index (trace st) = seqZ 1 (2 ^ m - 1)
    /\ Forall (store_in_stage (2 ^ m)) (trace st)
    /\ (forall k j, 0 <= k < m -> 0 <= j < 2 ^ k ->
          exists y, power phi (2 ^ m / (2 * 2 ^ k)) q = Done y
                    /\ arr st !! Z.to_nat (2 ^ k + j)
                       = power_table_entries (Z.to_nat (2 ^ k)) 1 y q !! Z.to_nat j).
Proof.
  intros Hm Hq Hlen.
  assert (Hn : 2 <= 2 ^ m).
  { change 2 with (2 ^ 1) at 1. apply Z.pow_le_mono_r; lia. }
  unfold build_shoup_table, array_set.
  assert ((0 <=? 0) && (0 <? Z.of_nat (length a)) = true) as ->.
  { apply andb_true_intro. split; [reflexivity | apply Z.ltb_lt; lia]. }
  cbn [mbind outcome_bind]. change (Z.to_nat 0) with 0%nat.
  destruct (shoup_stages_run m q phi Hm Hq 32 0
              {| arr := <[0%nat := 0]> a; cursor := 1; trace := [] |})
    as (st & Hrun & Hcur & Hlen' & (ws & Htr & Hidx & Hin) & Hlow & Hvals);
    cbn [arr cursor trace] in *; try lia.
  { rewrite length_insert. exact Hlen. }
  change (2 ^ 0) with 1 in *.
  exists st. split; [exact Hrun|]. split; [exact Hcur|].
  split; [rewrite Hlen'; apply length_insert|].
  split.
  { rewrite Hlow by (change (Z.to_nat 1) with 1%nat; lia).
    apply list_lookup_insert_eq. lia. }
  rewrite Htr. cbn [app]. split; [exact Hidx|]. split; [exact Hin|].
  intros k j Hk Hj. apply Hvals; lia.
Qed.






(** C1, as amended (the modulus is at most 2^16): for n = 2^m with
    1 <= m <= 31, 2 <= q <= 2^16, phi in [0, q) and an array of n cells,
    [build_shoup_table] ends, and for every stage size t = 2^k < n and
    every j in [0, t) the cell t + j holds (phi^(n/(2t)))^j mod q, that is
    y^j mod q for y = phi^(n/(2t)) mod q; the stage starts at 1 and each
    later cell is the one before it times y modulo q. *)
Theorem shoup_table_values m q phi a :
  1 <= m <= 31 -> 2 <= q <= 2 ^ 16 -> 0 <= phi < q ->
  Z.of_nat (length a) = 2 ^ m ->
  exists st,
    build_shoup_table a (2 ^ m) q phi = Done st
    /\ forall k j, 0 <= k < m -> 0 <= j < 2 ^ k ->
         let t := 2 ^ k in
         let y := phi ^ (2 ^ m / (2 * t)) mod q in
         arr st !! Z.to_nat (t + j) = Some ((phi ^ (2 ^ m / (2 * t))) ^ j mod q)
         /\ (phi ^ (2 ^ m / (2 * t))) ^ j mod q = y ^ j mod q
         /\ arr st !! Z.to_nat t = Some 1
         /\ (forall v, j + 1 < t -> arr st !! Z.to_nat (t + j) = Some v ->
               arr st !! Z.to_nat (t + j + 1) = Some ((v * y) mod q)).
Proof.
  intros Hm Hq Hphi Hlen.
  destruct (build_shoup_table_run m q phi a Hm ltac:(lia) Hlen)
    as (st & Hrun & _ & _ & _ & _ & _ & Hvals).
  exists st. split; [exact Hrun|].
  intros k j Hk Hj t y.
  assert (Ht : 0 < 2 ^ k) by (apply Z.pow_pos_nonneg; lia).
  assert (Hkm : 2 * 2 ^ k <= 2 ^ m).
  { replace (2 * 2 ^ k) with (2 ^ (Z.succ k)) by (rewrite Z.pow_succ_r; lia).
    apply Z.pow_le_mono_r; lia. }
  assert (Hm32 : 2 ^ m < 2 ^ 32) by (apply Z.pow_lt_mono_r; lia).
  assert (He : 0 <= 2 ^ m / (2 * 2 ^ k) < 2 ^ 32).
  { split; [apply Z.div_pos; lia|]. apply Z.div_lt_upper_bound; lia. }
  assert (Hcell : forall i, 0 <= i < 2 ^ k ->
            arr st !! Z.to_nat (2 ^ k + i) = Some (y ^ i mod q)).
  { intros i Hi. destruct (Hvals k i Hk Hi) as (y0 & Hy0 & Hcell).
    rewrite power_value in Hy0 by lia. injection Hy0 as <-.
    rewrite Hcell, power_table_entries_lookup; try lia.
    - rewrite Z2Nat.id, Z.mul_1_l by lia. reflexivity.
    - apply Z.mod_pos_bound. lia. }
  subst t. split; [|split; [|split]].
  - rewrite Hcell by lia. subst y. rewrite pow_mod_base by lia. reflexivity.
  - subst y. rewrite pow_mod_base by lia. reflexivity.
  - replace (2 ^ k) with (2 ^ k + 0) at 1 by lia.
    rewrite Hcell by lia. rewrite Z.pow_0_r, Z.mod_small by lia. reflexivity.
  - intros v Hj1 Hv. rewrite Hcell in Hv by lia. injection Hv as <-.
    replace (2 ^ k + j + 1) with (2 ^ k + (j + 1)) by lia.
    rewrite Hcell by lia.
    rewrite Z.mul_mod_idemp_l by lia.
    replace (j + 1) with (Z.succ j) by lia.
    rewrite Z.pow_succ_r by lia. do 2 f_equal. ring.
Qed.

Lemma shoup_table_values_witness :
  exists st,
    build_shoup_table [9; 9; 9; 9; 9; 9; 9; 9] (2 ^ 3) 7681 1213 = Done st
    /\ forall k j, 0 <= k < 3 -> 0 <= j < 2 ^ k ->
         let t := 2 ^ k in
         let y := 1213 ^ (2 ^ 3 / (2 * t)) mod 7681 in
         arr st !! Z.to_nat (t + j) = Some ((1213 ^ (2 ^ 3 / (2 * t))) ^ j mod 7681)
         /\ (1213 ^ (2 ^ 3 / (2 * t))) ^ j mod 7681 = y ^ j mod 7681
         /\ arr st !! Z.to_nat t = Some 1
         /\ (forall v, j + 1 < t -> arr st !! Z.to_nat (t + j) = Some v ->
               arr st !! Z.to_nat (t + j + 1) = Some ((v * y) mod 7681)).
Proof.
  apply (shoup_table_values 3 7681 1213 [9; 9; 9; 9; 9; 9; 9; 9]);
    [lia | lia | lia | reflexivity].
Defined.

(** C1, as stated, fails for a modulus above 2^16: with n = 8, q = 65537
    and phi = 65536, stage t = 2 uses y = power(65536, 2, 65537), whose
    square 65536 * 65536 wraps to 0 in 32 bits; cell 3 holds 0, while
    (phi^(8/4))^1 mod q = 1. *)
Lemma shoup_table_wraps_above_2_16 :
  2 <= 65537 /\ 0 <= 65536 < 65537
  /\ (exists st, build_shoup_table [0; 0; 0; 0; 0; 0; 0; 0] 8 65537 65536 = Done st
                 /\ arr st !! Z.to_nat (2 + 1) = Some 0)
  /\ (65536 ^ (8 / (2 * 2))) ^ 1 mod 65537 = 1.
Proof.
  split; [lia|]. split; [lia|]. split; [|reflexivity].
  eexists. split; [vm_compute; reflexivity | reflexivity].
Qed.

(** * Further properties of the tables of psi_power_tables *)

Lemma power_table_entries_range count x b q :
  0 < q <= 2 ^ 16 -> 0 <= x < q -> 0 <= b < q ->
  Forall (fun v => 0 <= v < q) (power_table_entries count x b q).
Proof.
  intros Hq Hx Hb. apply Forall_lookup. intros i v Hv.
  pose proof (lookup_lt_Some _ _ _ Hv) as Hi.
  rewrite power_table_entries_length in Hi.
  rewrite power_table_entries_lookup in Hv by assumption.
  injection Hv as <-. apply Z.mod_pos_bound. lia.
Qed.

(** X1: on every command line (q, n, psi) on which [main] of
    psi_power_tables returns 0, the third table is the second one scaled
    by the inverse of n: there is inv_n in [0, q) with
    (n * inv_n) mod q = 1 such that entry i of the scaled table is
    (entry i of the inverse table * inv_n) mod q, for every i in [0, n). *)
Theorem psi_tables_scaling q n psi c :
  PsiPowerTables.run [q; n; psi] = (Next 0, c) ->
  exists fwd inv scaled inv_n,
    stdout c = [fwd; inv; scaled] /\
    t_name scaled = scaled_inv_psi_powers_ntt /\
    0 <= inv_n < q /\ (n * inv_n) mod q = 1 /\
    forall i, 0 <= i < n ->
      exists b s,
        t_entries inv !! Z.to_nat i = Some b /\
        t_entries scaled !! Z.to_nat i = Some s /\
        s = (b * inv_n) mod q.
Proof.
  intros Hrun.
  destruct (psi_run_success q n psi 0 c Hrun)
    as ((Hq & Hn & Hpsi & _) & inv_n & inv_psi & Hinvn & Hinv & _ & _ & Hout).
  destruct (inverse_sound psi q inv_psi ltac:(lia) ltac:(lia) Hinv)
    as (_ & Hv & _).
  destruct (inverse_sound n q inv_n ltac:(lia) ltac:(lia) Hinvn)
    as (_ & Hvn & Hprodn).
  exists (psi_power_table n q psi), (inv_psi_power_table n q inv_psi),
    (scaled_inv_psi_power_table n q inv_psi inv_n), inv_n.
  split; [exact Hout|]. split; [reflexivity|]. split; [exact Hvn|].
  split; [exact Hprodn|].
  intros i Hi.
  cbn [t_entries inv_psi_power_table scaled_inv_psi_power_table power_table].
  rewrite !power_table_entries_lookup by lia.
  rewrite Z2Nat.id, Z.mul_1_l by lia.
  do 2 eexists. split; [reflexivity|]. split; [reflexivity|].
  rewrite Z.mul_mod_idemp_l by lia. f_equal. ring.
Qed.

Lemma psi_tables_scaling_witness :
  exists fwd inv scaled inv_n,
    stdout (snd (PsiPowerTables.run [7681; 4; 1925])) = [fwd; inv; scaled] /\
    t_name scaled = scaled_inv_psi_powers_ntt /\
    0 <= inv_n < 7681 /\ (4 * inv_n) mod 7681 = 1 /\
    forall i, 0 <= i < 4 ->
      exists b s,
        t_entries inv !! Z.to_nat i = Some b /\
        t_entries scaled !! Z.to_nat i = Some s /\
        s = (b * inv_n) mod 7681.
Proof.
  apply (psi_tables_scaling 7681 4 1925). vm_compute. reflexivity.
Defined.

(** X2: on every command line (q, n, psi) on which [main] of
    psi_power_tables returns 0, [stdout] holds exactly three tables, named
    psi_powers_ntt, inv_psi_powers_ntt and scaled_inv_psi_powers_ntt in
    this order, each labelled with q and n, with exactly n entries, all in
    [0, q). *)
Theorem psi_tables_shape q n psi c :
  PsiPowerTables.run [q; n; psi] = (Next 0, c) ->
  map t_name (stdout c)
  = [psi_powers_ntt; inv_psi_powers_ntt; scaled_inv_psi_powers_ntt]
  /\ Forall (fun t => t_q t = q /\ t_n t = n
                      /\ Z.of_nat (length (t_entries t)) = n
                      /\ Forall (fun v => 0 <= v < q) (t_entries t))
            (stdout c).
Proof.
  intros Hrun.
  destruct (psi_run_success q n psi 0 c Hrun)
    as ((Hq & Hn & Hpsi & _) & inv_n & inv_psi & Hinvn & Hinv & _ & _ & Hout).
  destruct (inverse_sound psi q inv_psi ltac:(lia) ltac:(lia) Hinv)
    as (_ & Hv & _).
  destruct (inverse_sound n q inv_n ltac:(lia) ltac:(lia) Hinvn)
    as (_ & Hvn & _).
  rewrite Hout. split; [reflexivity|].
  repeat constructor;
    cbn [t_entries psi_power_table inv_psi_power_table
         scaled_inv_psi_power_table power_table];
    try (rewrite power_table_entries_length; lia);
    apply power_table_entries_range; lia.
Qed.

Lemma psi_tables_shape_witness :
  map t_name (stdout (snd (PsiPowerTables.run [7681; 4; 1925])))
  = [psi_powers_ntt; inv_psi_powers_ntt; scaled_inv_psi_powers_ntt]
  /\ Forall (fun t => t_q t = 7681 /\ t_n t = 4
                      /\ Z.of_nat (length (t_entries t)) = 4
                      /\ Forall (fun v => 0 <= v < 7681) (t_entries t))
            (stdout (snd (PsiPowerTables.run [7681; 4; 1925]))).
Proof.
  apply (psi_tables_shape 7681 4 1925). vm_compute. reflexivity.
Defined.

(** * Further properties of [inverse] *)

Lemma inverse_zero q : 2 <= q < 2 ^ 31 -> inverse 0 q = Done None.
Proof.
  intros Hq. unfold inverse.
  destruct (Z.to_nat (i32 q)) as [|fuel] eqn:Hfuel.
  { rewrite i32_small in Hfuel by lia. lia. }
  assert (Hassert : euclid_asserts 0 q (euclid_init 0 q) = Done tt).
  { unfold euclid_asserts, bezout_r1, bezout_r2, sadd, smul, euclid_init.
    cbn [r1 r2 u1 u2 v1 v2]. rewrite !(i32_small q) by lia.
    change (i32 0) with 0. rewrite !Z.mul_0_l, !Z.mul_0_r, Z.mul_1_r.
    change (i32 0) with 0. rewrite Z.add_0_l, Z.add_0_r.
    change (i32 0) with 0. rewrite !(i32_small q) by lia.
    rewrite Z.eqb_refl. reflexivity. }
  assert (Hstep : euclid_step (euclid_init 0 q) = Euclid q 0 0 1 1 0).
  { unfold euclid_step, euclid_init. cbn [r1 r2 u1 u2 v1 v2].
    rewrite !(i32_small q) by lia.
    change (i32 0) with 0. rewrite Z.quot_0_l by lia.
    unfold ssub, smul. rewrite !Z.mul_0_l. reflexivity. }
  assert (Hloop : inverse_loop (S (S fuel)) 0 q (euclid_init 0 q)
                  = Done (Euclid q 0 0 1 1 0)).
  { cbn [inverse_loop].
    assert ((0 <? r2 (euclid_init 0 q)) = true) as ->.
    { cbn [euclid_init r2]. rewrite i32_small by lia. apply Z.ltb_lt. lia. }
    rewrite Hassert, Hstep. cbn [mbind outcome_bind r2].
    change (0 <? 0) with false. reflexivity. }
  rewrite Hloop. cbn [mbind outcome_bind]. unfold inverse_finish. cbn [r1].
  assert ((q =? 1) = false) as -> by (apply Z.eqb_neq; lia). reflexivity.
Qed.

(** X3: for every 0 <= n < 2^31 and 2 <= q < 2^31 (n need not be below
    q), [inverse n q] is never trapped and never runs out of its loop
    bound; it returns false exactly when gcd(n, q) <> 1; a value it
    returns lies in [0, q) and is the inverse of n modulo q; and the only
    assertion it can fail is the last one. *)
Theorem inverse_decides_units n q :
  0 <= n < 2 ^ 31 -> 2 <= q < 2 ^ 31 ->
  (inverse n q = Done None <-> Z.gcd n q <> 1)
  /\ (forall v, inverse n q = Done (Some v) -> 0 <= v < q /\ (n * v) mod q = 1)
  /\ inverse n q <> Trap
  /\ inverse n q <> Diverge
  /\ (forall s, inverse n q = Abort s -> s = A_inverse_product).
Proof.
  intros Hn Hq.
  destruct (Z.eq_dec n 0) as [->|Hn0].
  - rewrite inverse_zero by assumption.
    rewrite Z.gcd_0_l, Z.abs_eq by lia.
    repeat split; try discriminate; intros; lia.
  - destruct (inverse_cases n q ltac:(lia) Hq) as [[Hg E]|(Hg & v & Hv & Hp & E)];
      rewrite E.
    + repeat split; try discriminate; auto.
    + destruct (Z.rem (smul n v) q =? 1).
      * split; [split; [discriminate | contradiction]|].
        split; [intros w [= <-]; auto|].
        repeat split; discriminate.
      * split; [split; [discriminate | contradiction]|].
        split; [discriminate|].
        split; [discriminate|]. split; [discriminate|].
        by intros s [= <-].
Qed.

Lemma inverse_decides_units_witness :
  (inverse 99999 7681 = Done None <-> Z.gcd 99999 7681 <> 1)
  /\ (forall v, inverse 99999 7681 = Done (Some v) ->
        0 <= v < 7681 /\ (99999 * v) mod 7681 = 1)
  /\ inverse 99999 7681 <> Trap
  /\ inverse 99999 7681 <> Diverge
  /\ (forall s, inverse 99999 7681 = Abort s -> s = A_inverse_product).
Proof. apply (inverse_decides_units 99999 7681); lia. Defined.

(** X4: [inverse] undoes itself: for 2 <= q < 2^31 and 1 <= n < q, if
    [inverse n q] returns v then v >= 1, [inverse v q] does not return
    false, and any value it returns is n. *)
Theorem inverse_involutive n q v :
  2 <= q < 2 ^ 31 -> 1 <= n < q ->
  inverse n q = Done (Some v) ->
  1 <= v < q
  /\ inverse v q <> Done None
  /\ forall w, inverse v q = Done (Some w) -> w = n.
Proof.
  intros Hq Hn Hrun.
  destruct (inverse_sound n q v ltac:(lia) Hq Hrun) as (_ & Hv & Hp).
  assert (Hv1 : 1 <= v).
  { destruct (Z.eq_dec v 0) as [->|?]; [|lia].
    rewrite Z.mul_0_r, Z.mod_0_l in Hp by lia. discriminate. }
  split; [lia|]. split.
  - apply inverse_unit_not_none; try lia.
    apply Z.bezout_1_gcd. exists n, (- (n * v / q)).
    pose proof (Z.div_mod (n * v) q ltac:(lia)) as Hdm. rewrite Hp in Hdm. lia.
  - intros w Hw.
    destruct (inverse_sound v q w ltac:(lia) Hq Hw) as (_ & Hwb & Hpw).
    assert (E : (n * (v * w)) mod q = ((n * v) * w) mod q) by (f_equal; ring).
    rewrite <- Z.mul_mod_idemp_r, Hpw, Z.mul_1_r in E by lia.
    rewrite <- Z.mul_mod_idemp_l, Hp, Z.mul_1_l in E by lia.
    rewrite !Z.mod_small in E by lia. lia.
Qed.

Lemma inverse_involutive_witness :
  1 <= 5761 < 7681
  /\ inverse 5761 7681 <> Done None
  /\ forall w, inverse 5761 7681 = Done (Some w) -> w = 4.
Proof.
  apply (inverse_involutive 4 7681 5761); [lia | lia | vm_compute; reflexivity].
Defined.

Lemma last_assertion_value n v q :
  2 <= q -> 0 <= n * v < 2 ^ 32 -> (n * v) mod q = 1 ->
  (Z.rem (smul n v) q =? 1) = (n * v <? 2 ^ 31).
Proof.
  intros Hq Hprod Hp.
  destruct (Z.ltb_spec (n * v) (2 ^ 31)) as [Hfit|Hover].
  - unfold smul. rewrite i32_small by lia.
    rewrite Z.rem_mod_nonneg, Hp by lia. reflexivity.
  - assert (Hwrap : smul n v = n * v - 2 ^ 32).
    { unfold smul, i32.
      rewrite <- (Z.mod_unique (n * v + 2 ^ 31) (2 ^ 32) 1 (n * v - 2 ^ 31)); lia. }
    rewrite Hwrap.
    pose proof (Z.rem_bound_pos_neg (n * v - 2 ^ 32) q ltac:(lia) ltac:(lia)) as Hb.
    apply Z.eqb_neq. lia.
Qed.

(** X5: the exact reach of the overflow in the last assertion of
    [inverse], for the moduli the tools accept: for 2 <= q <= 2^16 and a
    unit n with 1 <= n < q, with v the inverse of n in [0, q),
    [inverse n q] returns v if n * v < 2^31 and aborts on the assertion
    [(n * u1) % q == 1] otherwise. *)
Theorem inverse_aborts_iff_product_overflows n q :
  2 <= q <= 2 ^ 16 -> 1 <= n < q -> Z.gcd n q = 1 ->
  exists v, 0 <= v < q /\ (n * v) mod q = 1 /\
    inverse n q = if n * v <? 2 ^ 31 then Done (Some v)
                  else Abort A_inverse_product.
Proof.
  intros Hq Hn Hg.
  destruct (inverse_cases n q ltac:(lia) ltac:(lia)) as [[Hne _]|(_ & v & Hv & Hp & E)];
    [contradiction|].
  exists v. split; [exact Hv|]. split; [exact Hp|].
  rewrite E, last_assertion_value by (try assumption; nia).
  reflexivity.
Qed.

Lemma inverse_aborts_iff_product_overflows_witness :
  exists v, 0 <= v < 61441 /\ (44853 * v) mod 61441 = 1 /\
    inverse 44853 61441 = if 44853 * v <? 2 ^ 31 then Done (Some v)
                          else Abort A_inverse_product.
Proof.
  apply (inverse_aborts_iff_product_overflows 44853 61441);
    [lia | lia | reflexivity].
Defined.

(** X6: modulus 1 is outside what [inverse] supports: for every
    1 <= n < 2^31, [inverse n 1] finds the gcd 1 and the coefficient 0,
    and then fails its last assertion, since (n * 0) % 1 is 0, not 1. *)
Theorem inverse_modulus_one_aborts n :
  1 <= n < 2 ^ 31 -> inverse n 1 = Abort A_inverse_product.
Proof.
  intros Hn.
  destruct (inverse_loop_ends n 1 Hn ltac:(lia) (S (Z.to_nat (i32 1))) (euclid_init n 1))
    as (s & Hrun & Hinv & Hz).
  { apply euclid_init_inv; lia. }
  { cbn. lia. }
  pose proof (euclid_exit_gcd n 1 s Hinv Hz) as Hg.
  rewrite Z.gcd_1_r in Hg.
  unfold inverse. rewrite Hrun. cbn [mbind outcome_bind].
  unfold inverse_finish. rewrite Hg. change (1 =? 1) with true. cbn iota.
  unfold srem. change (i32 1) with 1. change (1 =? 0) with false. cbn iota.
  cbn [mbind outcome_bind]. rewrite !Z.rem_1_r. cbn [Z.ltb Z.compare].
  cbn iota. change (0 <? 0) with false. cbn iota. reflexivity.
Qed.

Lemma inverse_modulus_one_aborts_witness : inverse 5 1 = Abort A_inverse_product.
Proof. apply (inverse_modulus_one_aborts 5). lia. Defined.

(** * Further properties of [power] *)

Lemma power_loop_reduced fuel : forall y x k q,
  0 < q -> 0 <= k < 2 ^ Z.of_nat fuel ->
  exists v, power_loop fuel y x k q = Done v
            /\ (k = 0 -> v = y) /\ (0 < k -> 0 <= v < q).
Proof.
  induction fuel as [|fuel IH]; intros y x k q Hq Hk; cbn [power_loop].
  - assert (k = 0) as -> by (cbn in Hk; lia). exists y. repeat split; lia.
  - destruct (Z.eqb_spec k 0) as [->|Hk0]; [exists y; repeat split; lia|].
    assert (Hk2 : 0 <= Z.shiftr k 1 < 2 ^ Z.of_nat fuel).
    { rewrite Z.shiftr_div_pow2 by lia. change (2 ^ 1) with 2.
      rewrite Nat2Z.inj_succ, Z.pow_succ_r in Hk by lia.
      split; [apply Z.div_pos; lia | apply Z.div_lt_upper_bound; lia]. }
    destruct (IH (if Z.land k 1 =? 0 then y else umul y x mod q)
                (umul x x mod q) (Z.shiftr k 1) q Hq Hk2) as (v & Hrun & Hz & Hpos).
    exists v. split; [exact Hrun|]. split; [lia|]. intros _.
    destruct (Z.eq_dec (Z.shiftr k 1) 0) as [E|E]; [|apply Hpos; lia].
    rewrite (Hz E).
    assert (Hodd : Z.land k 1 = 1).
    { rewrite land1_mod2. rewrite Z.shiftr_div_pow2 in E by lia.
      change (2 ^ 1) with 2 in E.
      pose proof (Z.div_mod k 2 ltac:(lia)).
      pose proof (Z.mod_pos_bound k 2 ltac:(lia)). lia. }
    rewrite Hodd. change (1 =? 0) with false. cbn iota.
    apply Z.mod_pos_bound. lia.
Qed.

(** X7: [power] needs no bound on its operands to return: for every
    32-bit exponent k and every x, with q > 0 it returns a value, which is
    1 when k = 0 and lies in [0, q) when k > 0; with q = 0 (or less) it
    stops on its assertion [q > 0] before any division. *)
Theorem power_returns_reduced x k q :
  0 <= k < 2 ^ 32 ->
  (0 < q -> exists v, power x k q = Done v
                      /\ (k = 0 -> v = 1) /\ (0 < k -> 0 <= v < q))
  /\ (q <= 0 -> power x k q = Abort A_power_q_positive).
Proof.
  intros Hk. split.
  - intros Hq. rewrite power_eq by assumption.
    apply (power_loop_reduced 32); [assumption | exact Hk].
  - intros Hq. unfold power.
    assert ((0 <? q) = false) as -> by (apply Z.ltb_ge; lia). reflexivity.
Qed.

Lemma power_returns_reduced_witness :
  (0 < 7 -> exists v, power 4294967295 4294967295 7 = Done v
                      /\ (4294967295 = 0 -> v = 1)
                      /\ (0 < 4294967295 -> 0 <= v < 7))
  /\ (7 <= 0 -> power 4294967295 4294967295 7 = Abort A_power_q_positive).
Proof. apply (power_returns_reduced 4294967295 4294967295 7). lia. Defined.

(** * The order of an accepted root *)

Lemma pow_unit psi q i : 0 <= i -> Z.gcd psi q = 1 -> Z.gcd (psi ^ i) q = 1.
Proof.
  intros Hi Hg. revert i Hi. apply natlike_ind.
  - apply Z.gcd_1_l.
  - intros i Hi IH. rewrite Z.pow_succ_r by assumption.
    apply Z.bezout_1_gcd.
    destruct (Z.gcd_bezout psi q 1 Hg) as (a & b & Hab).
    destruct (Z.gcd_bezout (psi ^ i) q 1 IH) as (c & d & Hcd).
    exists (a * c), (a * psi * d + b * c * psi ^ i + b * d * q).
    rewrite <- (Z.mul_1_l 1) at 1. rewrite <- Hab at 1. rewrite <- Hcd. ring.
Qed.

Lemma pow_cancel psi q i d :
  2 <= q -> 0 <= i -> 0 <= d -> Z.gcd psi q = 1 ->
  psi ^ (i + d) mod q = psi ^ i mod q -> psi ^ d mod q = 1.
Proof.
  intros Hq Hi Hd Hg E.
  apply Z.cong_iff_0 in E. apply Z.mod_divide in E; [|lia].
  rewrite Z.pow_add_r in E by assumption.
  replace (psi ^ i * psi ^ d - psi ^ i) with (psi ^ i * (psi ^ d - 1)) in E by ring.
  apply Z.gauss in E.
  2:{ rewrite Z.gcd_comm. apply pow_unit; assumption. }
  apply Z.mod_divide in E; [|lia].
  rewrite <- (Z.mod_small 1 q) by lia.
  apply Z.cong_iff_0. exact E.
Qed.

Lemma minus_one_mul a q :
  2 <= q -> 0 <= a < q -> ((q - 1) * a) mod q = q - 1 -> a = 1.
Proof.
  intros Hq Ha E.
  destruct (Z.eq_dec a 0) as [->|Ha0].
  { rewrite Z.mul_0_r, Z.mod_0_l in E by lia. lia. }
  rewrite <- (Z.mod_unique ((q - 1) * a) q (a - 1) (q - a)) in E; [lia | lia | ring].
Qed.

Lemma minus_one_mul_one a q :
  2 <= q -> 0 <= a < q -> ((q - 1) * a) mod q = 1 -> a = q - 1.
Proof.
  intros Hq Ha E.
  destruct (Z.eq_dec a 0) as [->|Ha0].
  { rewrite Z.mul_0_r, Z.mod_0_l in E by lia. lia. }
  rewrite <- (Z.mod_unique ((q - 1) * a) q (a - 1) (q - a)) in E; [lia | lia | ring].
Qed.

Section Order.

Variables q n psi : Z.
Hypothesis Hq : 3 <= q.
Hypothesis Hn : 1 <= n.
Hypothesis Hroot : psi ^ n mod q = q - 1.
Hypothesis Hprim : forall i, 1 <= i < n -> psi ^ i mod q <> 1.

Lemma no_early_one d : 1 <= d < 2 * n -> psi ^ d mod q <> 1.
Proof.
  intros Hd E.
  destruct (Z.lt_trichotomy d n) as [Hlt|[->|Hgt]].
  - exact (Hprim d ltac:(lia) E).
  - lia.
  - set (e := d - n). assert (He : 1 <= e < n) by (subst e; lia).
    pose proof (Z.mod_pos_bound (psi ^ e) q ltac:(lia)) as Hbe.
    pose proof (Z.mod_pos_bound (psi ^ (n - e)) q ltac:(lia)) as Hbf.
    assert (E1 : ((q - 1) * (psi ^ e mod q)) mod q = 1).
    { rewrite <- Hroot, Z.mul_mod_idemp_l, Z.mul_mod_idemp_r by lia.
      rewrite <- Z.pow_add_r by lia.
      replace (n + e) with d by (subst e; lia). exact E. }
    apply minus_one_mul_one in E1; [|lia|assumption].
    assert (E2 : ((q - 1) * (psi ^ (n - e) mod q)) mod q = q - 1).
    { rewrite <- E1 at 1. rewrite Z.mul_mod_idemp_l, Z.mul_mod_idemp_r by lia.
      rewrite <- Z.pow_add_r by lia.
      replace (e + (n - e)) with n by lia. exact Hroot. }
    apply minus_one_mul in E2; [|lia|assumption].
    exact (Hprim (n - e) ltac:(lia) E2).
Qed.

Lemma powers_distinct i j :
  0 <= i < 2 * n -> 0 <= j < 2 * n ->
  psi ^ i mod q = psi ^ j mod q -> i = j.
Proof.
  assert (Hg : Z.gcd psi q = 1) by (apply (root_is_unit psi n q); [lia | lia | exact Hroot]).
  assert (Hlt : forall a b, 0 <= a < b -> b < 2 * n ->
                  psi ^ a mod q <> psi ^ b mod q).
  { intros a b Ha Hb E.
    apply (no_early_one (b - a)); [lia|].
    apply (pow_cancel psi q a (b - a)); try lia; try assumption.
    replace (a + (b - a)) with b by lia. symmetry. exact E. }
  intros Hi Hj E.
  destruct (Z.lt_trichotomy i j) as [H|[H|H]]; [|exact H|].
  - exfalso. apply (Hlt i j); [lia | lia | exact E].
  - exfalso. apply (Hlt j i); [lia | lia | symmetry; exact E].
Qed.

Lemma powers_nonzero i : 0 <= i -> psi ^ i mod q <> 0.
Proof.
  intros Hi E.
  assert (Hg : Z.gcd psi q = 1) by (apply (root_is_unit psi n q); [lia | lia | exact Hroot]).
  apply Z.mod_divide in E; [|lia].
  pose proof (pow_unit psi q i Hi Hg) as Hu.
  assert (Hd : (q | Z.gcd (psi ^ i) q)).
  { apply Z.gcd_greatest; [exact E | apply Z.divide_refl]. }
  rewrite Hu in Hd. apply Z.divide_1_r_nonneg in Hd; lia.
Qed.

Lemma order_bound : 2 * n < q.
Proof.
  set (l := (fun i => psi ^ i mod q) <$> seqZ 0 (2 * n)).
  assert (Hnd : NoDup l).
  { apply NoDup_fmap_2_strong; [|apply NoDup_seqZ].
    intros x y Hx Hy E. apply elem_of_seqZ in Hx, Hy.
    apply powers_distinct; [lia | lia | exact E]. }
  assert (Hsub : forall x, x ∈ l -> x ∈ seqZ 1 (q - 1)).
  { intros x Hx. apply list_elem_of_fmap in Hx as (i & -> & Hi).
    apply elem_of_seqZ in Hi. apply elem_of_seqZ.
    pose proof (Z.mod_pos_bound (psi ^ i) q ltac:(lia)).
    pose proof (powers_nonzero i ltac:(lia)). lia. }
  pose proof (submseteq_length _ _ (NoDup_submseteq _ _ Hnd Hsub)) as Hlen.
  subst l. rewrite length_fmap, !length_seqZ in Hlen. lia.
Qed.

End Order.

Lemma root_checked_order q n psi :
  root_checked q n psi ->
  3 <= q /\ psi ^ n mod q = q - 1
  /\ (forall i, 1 <= i < n -> psi ^ i mod q <> 1)
  /\ 2 * n < q.
Proof.
  intros (Hq & Hn & Hpsi & Hroot & Hprim).
  assert (Hroot' : psi ^ n mod q = q - 1).
  { rewrite power_value in Hroot by lia. by injection Hroot. }
  assert (Hprim' : forall i, 1 <= i < n -> psi ^ i mod q <> 1).
  { intros i Hi E. apply (Hprim i Hi). rewrite power_value by lia. by rewrite E. }
  split; [lia|]. split; [exact Hroot'|]. split; [exact Hprim'|].
  apply (order_bound q n psi); try lia; assumption.
Qed.

(** X8: the root and primitivity checks bound the size by the modulus:
    every command line (q, n, psi) that passes the range checks, the check
    psi^n = q - 1 and the primitivity loop has 2 * n < q; psi has then
    2 * n distinct powers modulo q, none of them 0. *)
Theorem accepted_size_below_half_modulus q n psi :
  root_checked q n psi ->
  2 * n < q
  /\ (forall i j, 0 <= i < 2 * n -> 0 <= j < 2 * n ->
        psi ^ i mod q = psi ^ j mod q -> i = j)
  /\ (forall i, 0 <= i -> psi ^ i mod q <> 0).
Proof.
  intros Hok.
  destruct (root_checked_order q n psi Hok) as (Hq & Hroot & Hprim & Hord).
  destruct Hok as (_ & Hn & _).
  split; [exact Hord|]. split.
  - intros i j. apply (powers_distinct q n psi); try lia; assumption.
  - intros i. apply (powers_nonzero q n psi); try lia; assumption.
Qed.

Lemma accepted_size_below_half_modulus_witness :
  2 * 4 < 7681
  /\ (forall i j, 0 <= i < 2 * 4 -> 0 <= j < 2 * 4 ->
        1925 ^ i mod 7681 = 1925 ^ j mod 7681 -> i = j)
  /\ (forall i, 0 <= i -> 1925 ^ i mod 7681 <> 0).
Proof.
  apply (accepted_size_below_half_modulus 7681 4 1925).
  apply (psi_run_success 7681 4 1925 0 (snd (PsiPowerTables.run [7681; 4; 1925]))).
  vm_compute. reflexivity.
Defined.

(** * What the two tools do after the root checks *)

Lemma inverse_small_product n q :
  1 <= n < 2 ^ 31 -> 2 <= q < 2 ^ 31 -> n * (q - 1) < 2 ^ 31 ->
  Z.gcd n q = 1 ->
  exists v, 0 <= v < q /\ (n * v) mod q = 1 /\ inverse n q = Done (Some v).
Proof.
  intros Hn Hq Hfit Hg.
  destruct (inverse_cases n q Hn Hq) as [[Hne _]|(_ & v & Hv & Hp & E)];
    [contradiction|].
  exists v. split; [exact Hv|]. split; [exact Hp|]. rewrite E.
  assert (Hprod : 0 <= n * v < 2 ^ 31) by nia.
  unfold smul. rewrite i32_small by lia.
  rewrite Z.rem_mod_nonneg, Hp by lia. reflexivity.
Qed.

Lemma size_inverse_after_root_checks q n psi :
  root_checked q n psi ->
  (Z.gcd n q <> 1 /\ inverse n q = Done None)
  \/ (Z.gcd n q = 1 /\
      exists v, 0 <= v < q /\ (n * v) mod q = 1 /\ inverse n q = Done (Some v)).
Proof.
  intros Hok.
  destruct (root_checked_order q n psi Hok) as (_ & _ & _ & Hord).
  destruct Hok as (Hq & Hn & _).
  destruct (Z.eq_dec (Z.gcd n q) 1) as [Hg|Hg].
  - right. split; [exact Hg|]. apply inverse_small_product; try lia. nia.
  - left. split; [exact Hg|].
    destruct (inverse_cases n q ltac:(lia) ltac:(lia)) as [[_ E]|[Hg' _]];
      [exact E | contradiction].
Qed.

(** X9: what psi_power_tables does on a command line (q, n, psi) that
    passed the root checks.  If gcd(n, q) <> 1 it reports the size as not
    invertible and exits with failure, with nothing on [stdout].
    Otherwise, with v the inverse of psi in [0, q): if psi * v < 2^31 it
    returns 0 after printing the three tables, and if psi * v >= 2^31 it
    aborts on the last assertion of [inverse] with nothing on [stdout].
    The call [inverse(n, q)] itself never aborts there. *)
Theorem psi_tool_after_root_checks q n psi :
  root_checked q n psi ->
  (Z.gcd n q <> 1 ->
     PsiPowerTables.run [q; n; psi]
     = (Exited EXIT_FAILURE, Console [Size_not_invertible n q] []))
  /\ (Z.gcd n q = 1 ->
      exists v, 0 <= v < q /\ (psi * v) mod q = 1
        /\ (psi * v < 2 ^ 31 ->
            exists c, PsiPowerTables.run [q; n; psi] = (Next 0, c)
                      /\ length (stdout c) = 3%nat)
        /\ (2 ^ 31 <= psi * v ->
            fst (PsiPowerTables.run [q; n; psi]) = Aborted A_inverse_product
            /\ stdout (snd (PsiPowerTables.run [q; n; psi])) = [])).
Proof.
  intros Hok.
  destruct (psi_run_cases q n psi) as [[Hno _]|[_ ->]]; [contradiction|].
  unfold psi_tail.
  destruct (size_inverse_after_root_checks q n psi Hok)
    as [[Hg ->]|(Hg & inv_n & _ & _ & ->)].
  { split; [reflexivity | contradiction]. }
  split; [contradiction|]. intros _.
  destruct (root_checked_order q n psi Hok) as (_ & Hroot & _).
  destruct Hok as (Hq & Hn & Hpsi & _).
  assert (Hunit : Z.gcd psi q = 1)
    by (apply (root_is_unit psi n q); [lia | lia | exact Hroot]).
  destruct (inverse_cases psi q ltac:(lia) ltac:(lia))
    as [[Hne _]|(_ & v & Hv & Hp & E)]; [contradiction|].
  exists v. split; [exact Hv|]. split; [exact Hp|].
  rewrite E, last_assertion_value by (try assumption; nia).
  split; intros Hprod.
  - assert ((psi * v <? 2 ^ 31) = true) as -> by (apply Z.ltb_lt; lia).
    eexists. split; reflexivity.
  - assert ((psi * v <? 2 ^ 31) = false) as -> by (apply Z.ltb_ge; lia).
    split; reflexivity.
Qed.

Lemma psi_tool_after_root_checks_witness :
  (Z.gcd 4 61441 <> 1 ->
     PsiPowerTables.run [61441; 4; 44853]
     = (Exited EXIT_FAILURE, Console [Size_not_invertible 4 61441] []))
  /\ (Z.gcd 4 61441 = 1 ->
      exists v, 0 <= v < 61441 /\ (44853 * v) mod 61441 = 1
        /\ (44853 * v < 2 ^ 31 ->
            exists c, PsiPowerTables.run [61441; 4; 44853] = (Next 0, c)
                      /\ length (stdout c) = 3%nat)
        /\ (2 ^ 31 <= 44853 * v ->
            fst (PsiPowerTables.run [61441; 4; 44853]) = Aborted A_inverse_product
            /\ stdout (snd (PsiPowerTables.run [61441; 4; 44853])) = [])).
Proof.
  apply (psi_tool_after_root_checks 61441 4 44853).
  unfold root_checked.
  split; [lia|]. split; [lia|]. split; [lia|].
  split; [vm_compute; reflexivity|].
  intros i Hi.
  assert (Hc : i = 1 \/ i = 2 \/ i = 3) by lia.
  destruct Hc as [->|[->| ->]]; vm_compute; discriminate.
Defined.

(** X10: psi_power_tables always terminates in one of three ways: on
    every command line it returns 0 with three tables on [stdout], or it
    exits with EXIT_FAILURE having written at least one message to
    [stderr] and nothing to [stdout], or it aborts on the last assertion of
    [inverse] with nothing on [stdout].  It never divides by zero, never
    fails another assertion and never exhausts a loop bound. *)
Theorem psi_tool_outcomes args :
  (fst (PsiPowerTables.run args) = Next 0
   /\ length (stdout (snd (PsiPowerTables.run args))) = 3%nat)
  \/ (fst (PsiPowerTables.run args) = Exited EXIT_FAILURE
      /\ stdout (snd (PsiPowerTables.run args)) = []
      /\ stderr (snd (PsiPowerTables.run args)) <> [])
  \/ (fst (PsiPowerTables.run args) = Aborted A_inverse_product
      /\ stdout (snd (PsiPowerTables.run args)) = []).
Proof.
  assert (Hargs : (exists x1 x2 x3, args = [x1; x2; x3])
                  \/ PsiPowerTables.run args
                     = (Exited EXIT_FAILURE, Console [Usage] [])).
  { destruct args as [|x1 [|x2 [|x3 [|x4 rest]]]]; eauto. }
  destruct Hargs as [(q & n & psi & ->) | ->].
  2:{ right. left. cbn. repeat split. discriminate. }
  destruct (psi_run_cases q n psi) as [[_ R]|[Hok ->]].
  { destruct (rejects_empty _ R) as (c & E & Hout & Herr & _).
    rewrite E. right. left. cbn. auto. }
  unfold psi_tail.
  destruct (size_inverse_after_root_checks q n psi Hok)
    as [[Hg ->]|(Hg & inv_n & _ & _ & ->)].
  { right. left. cbn. repeat split. discriminate. }
  destruct (root_checked_order q n psi Hok) as (_ & Hroot & _).
  destruct Hok as (Hq & Hn & Hpsi & _).
  assert (Hunit : Z.gcd psi q = 1)
    by (apply (root_is_unit psi n q); [lia | lia | exact Hroot]).
  destruct (inverse_cases psi q ltac:(lia) ltac:(lia))
    as [[Hne _]|(_ & v & Hv & Hp & ->)]; [contradiction|].
  destruct (Z.rem (smul psi v) q =? 1).
  - left. cbn. auto.
  - right. right. split; reflexivity.
Qed.

(** * Sizes that are not a power of two *)

Lemma shoup_stage_overrun count : forall n q t y j x st,
  0 <= t -> 0 <= j -> cursor st = t + j ->
  t + j <= n -> n < t + j + Z.of_nat count -> n < 2 ^ 32 ->
  Z.of_nat (length (arr st)) = n ->
  shoup_stage count n q t y j x st = Abort A_cursor_bound.
Proof.
  induction count as [|count IH]; intros n q t y j x st Ht Hj Hcur Hle Hover Hn Hlen.
  - lia.
  - cbn [shoup_stage].
    rewrite (u32_small (t + j)) by lia.
    rewrite Hcur, Z.eqb_refl. cbn [mbind outcome_bind assert].
    destruct (Z.ltb_spec (t + j) n) as [Hlt|Hge]; cbn [mbind outcome_bind assert];
      [|reflexivity].
    unfold array_set.
    assert ((0 <=? t + j) && (t + j <? Z.of_nat (length (arr st))) = true) as ->.
    { apply andb_true_intro. split; [apply Z.leb_le | apply Z.ltb_lt]; lia. }
    cbn [mbind outcome_bind].
    rewrite (u32_small (j + 1)), (u32_small (t + j + 1)) by lia.
    apply IH; cbn [arr cursor trace]; try lia.
    rewrite length_insert. lia.
Qed.

Section NotPowerOfTwo.

Variables K n q phi : Z.
Hypothesis HK : 0 <= K <= 30.
Hypothesis Hn : 2 ^ K < n < 2 ^ (K + 1).
Hypothesis Hq : 0 < q.

Lemma shoup_stages_overrun fuel : forall j st,
  0 <= j <= K -> K - j < Z.of_nat fuel ->
  cursor st = 2 ^ j -> Z.of_nat (length (arr st)) = n ->
  shoup_stages fuel n q phi (2 ^ j) st = Abort A_cursor_bound.
Proof.
  assert (HK1 : 2 ^ (K + 1) <= 2 ^ 31) by (apply Z.pow_le_mono_r; lia).
  induction fuel as [|fuel IH]; intros j st Hj Hfuel Hcur Hlen; [lia|].
  assert (Ht : 0 < 2 ^ j) by (apply Z.pow_pos_nonneg; lia).
  assert (HtK : 2 ^ j <= 2 ^ K) by (apply Z.pow_le_mono_r; lia).
  assert (Hdbl : 2 ^ (j + 1) = 2 * 2 ^ j)
    by (replace (j + 1) with (Z.succ j) by lia; apply Z.pow_succ_r; lia).
  assert (HdblK : 2 ^ (K + 1) = 2 * 2 ^ K)
    by (replace (K + 1) with (Z.succ K) by lia; apply Z.pow_succ_r; lia).
  cbn [shoup_stages].
  assert ((2 ^ j <? n) = true) as -> by (apply Z.ltb_lt; lia).
  rewrite (umul_small 2 (2 ^ j)) by lia.
  unfold udiv.
  assert ((2 * 2 ^ j =? 0) = false) as -> by (apply Z.eqb_neq; lia).
  cbn [mbind outcome_bind].
  assert (He : 0 <= n / (2 * 2 ^ j) < 2 ^ 32).
  { split; [apply Z.div_pos; lia|]. apply Z.div_lt_upper_bound; nia. }
  destruct (power_total phi (n / (2 * 2 ^ j)) q Hq He) as [y Hy].
  rewrite Hy. cbn [mbind outcome_bind].
  destruct (Z.eq_dec j K) as [->|Hne].
  - rewrite (shoup_stage_overrun (Z.to_nat (2 ^ K)) n q (2 ^ K) y 0 1 st); try lia.
    reflexivity.
  - assert (Hnext : 2 ^ (j + 1) <= 2 ^ K) by (apply Z.pow_le_mono_r; lia).
    destruct (shoup_stage_run (Z.to_nat (2 ^ j)) n q (2 ^ j) y 0 1 st)
      as (a' & Hrun & Hlen' & _ & _); try lia.
    rewrite Hrun. cbn [mbind outcome_bind].
    assert (Hshl : ushl1 (2 ^ j) = 2 ^ (j + 1)).
    { unfold ushl1. rewrite Z.shiftl_mul_pow2 by lia. change (2 ^ 1) with 2.
      rewrite u32_small by lia. lia. }
    rewrite Hshl. apply IH; cbn [arr cursor trace]; lia.
Qed.

Lemma build_shoup_table_overrun a :
  Z.of_nat (length a) = n ->
  build_shoup_table a n q phi = Abort A_cursor_bound.
Proof.
  intros Hlen.
  assert (H1 : 0 < 2 ^ K) by (apply Z.pow_pos_nonneg; lia).
  unfold build_shoup_table, array_set.
  assert ((0 <=? 0) && (0 <? Z.of_nat (length a)) = true) as ->.
  { apply andb_true_intro. split; [reflexivity | apply Z.ltb_lt; lia]. }
  cbn [mbind outcome_bind].
  apply (shoup_stages_overrun 32 0); cbn [arr cursor trace]; try lia.
  rewrite length_insert. exact Hlen.
Qed.

End NotPowerOfTwo.

(** X11: [build_shoup_table] does not support a size that is not a power
    of two, and shoup_tables does not check for one: for 2^K < n < 2^(K+1)
    (K <= 30), a modulus q > 0 and an array of n cells, the stage t = 2^K
    runs past the array and the builder stops on its assertion [i < n].
    On such a command line that passes the root checks with n invertible,
    shoup_tables prints the parameter summary to [stderr], aborts, and
    prints no table. *)
Theorem shoup_size_not_power_of_two K q n psi cells :
  0 <= K <= 30 -> 2 ^ K < n < 2 ^ (K + 1) ->
  Z.of_nat (length cells) = n ->
  (forall phi, 0 < q -> build_shoup_table cells n q phi = Abort A_cursor_bound)
  /\ (root_checked q n psi -> Z.gcd n q = 1 ->
      fst (ShoupTables.run (Some cells) [q; n; psi]) = Aborted A_cursor_bound
      /\ stdout (snd (ShoupTables.run (Some cells) [q; n; psi])) = []).
Proof.
  intros HK Hn Hlen. split.
  - intros phi Hq. apply (build_shoup_table_overrun K); assumption.
  - intros Hok Hg.
    destruct (shoup_run_cases (Some cells) q n psi) as [[Hno _]|[_ ->]];
      [contradiction|].
    unfold shoup_tail.
    destruct (size_inverse_after_root_checks q n psi Hok)
      as [[Hne _]|(_ & inv_n & _ & _ & ->)]; [contradiction|].
    destruct Hok as (Hq & _).
    rewrite (build_shoup_table_overrun K n q _ HK Hn ltac:(lia) cells Hlen).
    split; reflexivity.
Qed.

Lemma shoup_size_not_power_of_two_witness :
  build_shoup_table [9; 9; 9] 3 7681 4 = Abort A_cursor_bound
  /\ fst (ShoupTables.run (Some [9; 9; 9]) [7681; 3; 685]) = Aborted A_cursor_bound
  /\ stdout (snd (ShoupTables.run (Some [9; 9; 9]) [7681; 3; 685])) = [].
Proof.
  destruct (shoup_size_not_power_of_two 1 7681 3 685 [9; 9; 9]) as [Hbuild Hrun];
    [lia | vm_compute; split; reflexivity | reflexivity |].
  split; [apply Hbuild; lia|].
  apply Hrun; [|reflexivity].
  unfold root_checked.
  split; [lia|]. split; [lia|]. split; [lia|].
  split; [vm_compute; reflexivity|].
  intros i Hi.
  assert (Hc : i = 1 \/ i = 2) by lia.
  destruct Hc as [-> | ->]; vm_compute; discriminate.
Defined.

(** * shoup_tables on a power of two *)

Lemma shoup_table_values_aux m q phi a :
  1 <= m <= 31 -> 2 <= q <= 2 ^ 16 -> 0 <= phi < q ->
  Z.of_nat (length a) = 2 ^ m ->
  exists st,
    build_shoup_table a (2 ^ m) q phi = Done st
    /\ length (arr st) = length a
    /\ arr st !! 0%nat = Some 0
    /\ forall k j, 0 <= k < m -> 0 <= j < 2 ^ k ->
         arr st !! Z.to_nat (2 ^ k + j)
         = Some ((phi ^ (2 ^ m / (2 * 2 ^ k))) ^ j mod q).
Proof.
  intros Hm Hq Hphi Hlen.
  destruct (build_shoup_table_run m q phi a Hm ltac:(lia) Hlen)
    as (st & Hrun & _ & Hlen' & H0 & _ & _ & Hvals).
  exists st. split; [exact Hrun|]. split; [exact Hlen'|]. split; [exact H0|].
  intros k j Hk Hj.
  assert (Ht : 0 < 2 ^ k) by (apply Z.pow_pos_nonneg; lia).
  assert (Hkm : 2 * 2 ^ k <= 2 ^ m).
  { replace (2 * 2 ^ k) with (2 ^ (Z.succ k)) by (rewrite Z.pow_succ_r; lia).
    apply Z.pow_le_mono_r; lia. }
  assert (Hm32 : 2 ^ m < 2 ^ 32) by (apply Z.pow_lt_mono_r; lia).
  assert (He : 0 <= 2 ^ m / (2 * 2 ^ k) < 2 ^ 32).
  { split; [apply Z.div_pos; lia|]. apply Z.div_lt_upper_bound; lia. }
  destruct (Hvals k j Hk Hj) as (y0 & Hy0 & Hcell).
  rewrite power_value in Hy0 by lia. injection Hy0 as <-.
  rewrite Hcell, power_table_entries_lookup; try lia.
  - rewrite Z2Nat.id, Z.mul_1_l, pow_mod_base by lia. reflexivity.
  - apply Z.mod_pos_bound. lia.
Qed.

Lemma shoup_entries_range m q phi a st :
  1 <= m <= 31 -> 2 <= q <= 2 ^ 16 -> 0 <= phi < q ->
  Z.of_nat (length a) = 2 ^ m ->
  build_shoup_table a (2 ^ m) q phi = Done st ->
  Forall (fun v => 0 <= v < q) (arr st).
Proof.
  intros Hm Hq Hphi Hlen Hrun.
  destruct (build_shoup_table_run m q phi a Hm ltac:(lia) Hlen)
    as (st' & Hrun' & _ & Hlen' & H0 & _ & _ & Hvals).
  rewrite Hrun in Hrun'. injection Hrun' as <-.
  apply Forall_lookup. intros i v Hv.
  pose proof (lookup_lt_Some _ _ _ Hv) as Hi.
  destruct (Nat.eq_dec i 0) as [->|Hi0].
  { rewrite H0 in Hv. injection Hv as <-. lia. }
  set (k := Z.log2 (Z.of_nat i)).
  destruct (Z.log2_spec (Z.of_nat i) ltac:(lia)) as [Hlo Hhi]. fold k in Hlo, Hhi.
  assert (Hk0 : 0 <= k) by apply Z.log2_nonneg.
  assert (Hkm : k < m).
  { destruct (Z.lt_ge_cases k m) as [?|Hge]; [assumption|].
    assert (2 ^ m <= 2 ^ k) by (apply Z.pow_le_mono_r; lia). lia. }
  assert (Hsucc : 2 ^ Z.succ k = 2 * 2 ^ k) by (apply Z.pow_succ_r; lia).
  destruct (Hvals k (Z.of_nat i - 2 ^ k) ltac:(lia) ltac:(lia)) as (y & Hy & Hcell).
  replace (Z.to_nat (2 ^ k + (Z.of_nat i - 2 ^ k))) with i in Hcell by lia.
  rewrite Hcell in Hv.
  assert (Hyr : 0 <= y < q).
  { assert (He : 0 <= 2 ^ m / (2 * 2 ^ k) < 2 ^ 32).
    { assert (2 ^ m < 2 ^ 32) by (apply Z.pow_lt_mono_r; lia).
      split; [apply Z.div_pos; lia|]. apply Z.div_lt_upper_bound; lia. }
    apply (power_range phi (2 ^ m / (2 * 2 ^ k)) q y); try lia. exact Hy. }
  pose proof (power_table_entries_range (Z.to_nat (2 ^ k)) 1 y q
                ltac:(lia) ltac:(lia) Hyr) as Hall.
  rewrite Forall_lookup in Hall. exact (Hall _ _ Hv).
Qed.

(** X12: shoup_tables on a good command line: if (q, n, psi) passes the
    root checks, n = 2^m is invertible modulo q and [malloc] returns n
    cells, the tool returns 0 and prints exactly one table, named
    shoup_ntt and labelled with n and q; it has n entries, all in [0, q),
    the first is 0, and for every stage size t = 2^k < n and j in [0, t)
    entry t + j is (phi^(n/(2t)))^j mod q with phi = psi^2 mod q: the
    table does not depend on what the cells held. *)
Theorem shoup_tool_succeeds m q psi cells :
  1 <= m -> root_checked q (2 ^ m) psi -> Z.gcd (2 ^ m) q = 1 ->
  Z.of_nat (length cells) = 2 ^ m ->
  exists c T,
    ShoupTables.run (Some cells) [q; 2 ^ m; psi] = (Next 0, c)
    /\ stdout c = [T]
    /\ t_name T = shoup_ntt /\ t_n T = 2 ^ m /\ t_q T = q
    /\ Z.of_nat (length (t_entries T)) = 2 ^ m
    /\ Forall (fun v => 0 <= v < q) (t_entries T)
    /\ t_entries T !! 0%nat = Some 0
    /\ forall k j, 0 <= k < m -> 0 <= j < 2 ^ k ->
         t_entries T !! Z.to_nat (2 ^ k + j)
         = Some (((psi ^ 2 mod q) ^ (2 ^ m / (2 * 2 ^ k))) ^ j mod q).
Proof.
  intros Hm Hok Hg Hlen.
  destruct (shoup_run_cases (Some cells) q (2 ^ m) psi) as [[Hno _]|[_ ->]];
    [contradiction|].
  unfold shoup_tail.
  destruct (size_inverse_after_root_checks q (2 ^ m) psi Hok)
    as [[Hne _]|(_ & inv_n & _ & _ & ->)]; [contradiction|].
  destruct Hok as (Hq & Hn & Hpsi & _).
  assert (Hm31 : m <= 31).
  { destruct (Z.le_gt_cases m 31) as [?|Hgt]; [assumption|].
    assert (2 ^ 32 <= 2 ^ m) by (apply Z.pow_le_mono_r; lia). lia. }
  destruct (phi_value psi q Hq Hpsi) as [Hphi Hphib].
  destruct (shoup_table_values_aux m q (umul psi psi mod q) cells
              ltac:(lia) ltac:(lia) Hphib Hlen) as (st & Hrun & Hlen' & H0 & Hcells).
  rewrite Hrun.
  pose proof (shoup_entries_range m q _ cells st ltac:(lia) ltac:(lia) Hphib Hlen Hrun)
    as Hrange.
  do 2 eexists. split; [reflexivity|]. cbn [stdout].
  split; [reflexivity|]. cbn [print_table t_name t_n t_q t_entries].
  rewrite take_ge by lia.
  split; [reflexivity|]. split; [reflexivity|]. split; [reflexivity|].
  split; [lia|]. split; [exact Hrange|]. split; [exact H0|].
  intros k j Hk Hj. rewrite <- Hphi. apply Hcells; assumption.
Qed.

Lemma shoup_tool_succeeds_witness :
  exists c T,
    ShoupTables.run (Some [9; 9; 9; 9; 9; 9; 9; 9]) [7681; 2 ^ 3; 527] = (Next 0, c)
    /\ stdout c = [T]
    /\ t_name T = shoup_ntt /\ t_n T = 2 ^ 3 /\ t_q T = 7681
    /\ Z.of_nat (length (t_entries T)) = 2 ^ 3
    /\ Forall (fun v => 0 <= v < 7681) (t_entries T)
    /\ t_entries T !! 0%nat = Some 0
    /\ forall k j, 0 <= k < 3 -> 0 <= j < 2 ^ k ->
         t_entries T !! Z.to_nat (2 ^ k + j)
         = Some (((527 ^ 2 mod 7681) ^ (2 ^ 3 / (2 * 2 ^ k))) ^ j mod 7681).
Proof.
  apply (shoup_tool_succeeds 3 7681 527 [9; 9; 9; 9; 9; 9; 9; 9]);
    [lia | | reflexivity | reflexivity].
  unfold root_checked.
  split; [lia|]. split; [vm_compute; split; reflexivity|]. split; [lia|].
  split; [vm_compute; reflexivity|].
  intros i Hi. change (2 ^ 3) with 8 in Hi.
  assert (Hc : i = 1 \/ i = 2 \/ i = 3 \/ i = 4 \/ i = 5 \/ i = 6 \/ i = 7) by lia.
  destruct Hc as [-> | [-> | [-> | [-> | [-> | [-> | ->]]]]]];
    vm_compute; discriminate.
Defined.

(** X13: shoup_tables, given by [malloc] either NULL or as many cells as
    the size argument asks for, always terminates in one of three ways: it
    returns 0 with one table on [stdout]; or it exits with EXIT_FAILURE
    with a non-empty [stderr] and an empty [stdout]; or it aborts on the
    assertion [i < n] of [build_shoup_table] with an empty [stdout].  It
    never divides by zero, never stores out of bounds, never fails
    another assertion and never exhausts a loop bound. *)
Theorem shoup_tool_outcomes block args :
  (forall cells x1 x2 x3,
     block = Some cells -> args = [x1; x2; x3] -> Z.of_nat (length cells) = x2) ->
  (fst (ShoupTables.run block args) = Next 0
   /\ length (stdout (snd (ShoupTables.run block args))) = 1%nat)
  \/ (fst (ShoupTables.run block args) = Exited EXIT_FAILURE
      /\ stdout (snd (ShoupTables.run block args)) = []
      /\ stderr (snd (ShoupTables.run block args)) <> [])
  \/ (fst (ShoupTables.run block args) = Aborted A_cursor_bound
      /\ stdout (snd (ShoupTables.run block args)) = []).
Proof.
  intros Hblock.
  assert (Hargs : (exists x1 x2 x3, args = [x1; x2; x3])
                  \/ ShoupTables.run block args
                     = (Exited EXIT_FAILURE, Console [Usage] [])).
  { destruct args as [|x1 [|x2 [|x3 [|x4 rest]]]]; eauto. }
  destruct Hargs as [(q & n & psi & ->) | ->].
  2:{ right. left. cbn. repeat split. discriminate. }
  destruct (shoup_run_cases block q n psi) as [[_ R]|[Hok ->]].
  { destruct (rejects_empty _ R) as (c & E & Hout & Herr & _).
    rewrite E. right. left. cbn. auto. }
  unfold shoup_tail.
  destruct (size_inverse_after_root_checks q n psi Hok)
    as [[Hg ->]|(Hg & inv_n & _ & _ & ->)].
  { right. left. cbn. repeat split. discriminate. }
  destruct block as [cells|].
  2:{ right. left. cbn. repeat split. discriminate. }
  pose proof (Hblock cells q n psi eq_refl eq_refl) as Hlen.
  destruct Hok as (Hq & Hn & Hpsi & _).
  destruct (phi_value psi q Hq Hpsi) as [_ Hphib].
  set (K := Z.log2 n).
  destruct (Z.log2_spec n ltac:(lia)) as [Hlo Hhi]. fold K in Hlo, Hhi.
  assert (HK0 : 0 <= K) by apply Z.log2_nonneg.
  assert (HK : K <= 30).
  { destruct (Z.le_gt_cases K 30) as [?|Hgt]; [assumption|].
    assert (2 ^ 31 <= 2 ^ K) by (apply Z.pow_le_mono_r; lia). lia. }
  clearbody K.
  destruct (Z.eq_dec n (2 ^ K)) as [->|Hne].
  - assert (HK1 : 1 <= K).
    { destruct (Z.eq_dec K 0) as [->|?]; [|lia]. change (2 ^ 0) with 1 in Hn. lia. }
    destruct (shoup_table_values_aux K q (umul psi psi mod q) cells
                ltac:(lia) ltac:(lia) Hphib Hlen) as (st & -> & _).
    left. cbn. auto.
  - replace (Z.succ K) with (K + 1) in Hhi by lia.
    rewrite (build_shoup_table_overrun K n q _ ltac:(lia) ltac:(lia) ltac:(lia)
               cells Hlen).
    right. right. cbn. auto.
Qed.

Lemma shoup_tool_outcomes_witness :
  (fst (ShoupTables.run (Some [9; 9; 9]) [7681; 3; 685]) = Next 0
   /\ length (stdout (snd (ShoupTables.run (Some [9; 9; 9]) [7681; 3; 685]))) = 1%nat)
  \/ (fst (ShoupTables.run (Some [9; 9; 9]) [7681; 3; 685]) = Exited EXIT_FAILURE
      /\ stdout (snd (ShoupTables.run (Some [9; 9; 9]) [7681; 3; 685])) = []
      /\ stderr (snd (ShoupTables.run (Some [9; 9; 9]) [7681; 3; 685])) <> [])
  \/ (fst (ShoupTables.run (Some [9; 9; 9]) [7681; 3; 685]) = Aborted A_cursor_bound
      /\ stdout (snd (ShoupTables.run (Some [9; 9; 9]) [7681; 3; 685])) = []).
Proof.
  apply (shoup_tool_outcomes (Some [9; 9; 9]) [7681; 3; 685]).
  intros cells x1 x2 x3 [= <-] [= _ <- _]. reflexivity.
Defined.

(** * The diagnostic of the first failed check *)

Lemma check_primitive_reports q psi phi count : forall i c,
  1 < q < 65535 -> 1 < psi < q -> 1 <= i -> i + Z.of_nat count <= 100000 ->
  (exists j, i <= j < i + Z.of_nat count /\ psi ^ j mod q = 1) ->
  check_primitive count i q psi phi c
  = (Exited EXIT_FAILURE,
     {| stderr := stderr c ++ [Not_primitive phi; Not_primitive_exponent];
        stdout := stdout c |}).
Proof.
  induction count as [|count IH]; intros i c Hq Hpsi Hi Hb (j & Hj & Hone); [lia|].
  cbn [check_primitive]. rewrite proc_bind_unfold.
  rewrite (power_value psi i q) by lia. cbn [lift].
  destruct (Z.eqb_spec (psi ^ i mod q) 1) as [E|E].
  - unfold mbind, proc_bind, eprint, exit. cbn. rewrite <- app_assoc. reflexivity.
  - rewrite u32_small by lia. apply IH; try lia.
    exists j. split; [|exact Hone].
    destruct (Z.eq_dec j i) as [->|?]; [contradiction | lia].
Qed.

Lemma root_checks_report x1 x2 x3 {A : Type} (k : Z -> Z -> Z -> Z -> proc A) :
  let m : proc A :=
    q ← read_modulus x1;
    n ← read_size x2;
    psi ← read_psi x3 q;
    let phi := umul psi psi mod q in
    check_root q n psi phi ;;
    check_primitive (Z.to_nat (n - 1)) 1 q psi phi ;;
    k q n psi phi in
  let fails d := m console_empty = (Exited EXIT_FAILURE, Console d []) in
  (x1 <= 1 -> fails [Invalid_modulus x1])
  /\ (65535 <= x1 -> fails [Modulus_too_large])
  /\ (1 < x1 < 65535 -> x2 <= 1 -> fails [Invalid_size x2])
  /\ (1 < x1 < 65535 -> 100000 <= x2 -> fails [Size_too_large])
  /\ (1 < x1 < 65535 -> 1 < x2 < 100000 -> x3 <= 1 \/ x1 <= x3 ->
      fails [Psi_out_of_range (x1 - 1)])
  /\ (1 < x1 < 65535 -> 1 < x2 < 100000 -> 1 < x3 < x1 ->
      x3 ^ x2 mod x1 <> x1 - 1 ->
      fails [Not_root_of_minus_one x3 (x3 ^ x2 mod x1)])
  /\ (1 < x1 < 65535 -> 1 < x2 < 100000 -> 1 < x3 < x1 ->
      x3 ^ x2 mod x1 = x1 - 1 ->
      (exists i, 1 <= i < x2 /\ x3 ^ i mod x1 = 1) ->
      fails [Not_primitive (x3 ^ 2 mod x1); Not_primitive_exponent]).
Proof.
  intros m fails. subst m fails. cbv beta.
  assert (Hmod : forall c, 1 < x1 < 65535 -> read_modulus x1 c = (Next x1, c)).
  { intros c H. destruct (read_modulus_cases x1 c) as [[_ E]|[Hno _]]; tauto. }
  assert (Hsize : forall c, 1 < x2 < 100000 -> read_size x2 c = (Next x2, c)).
  { intros c H. destruct (read_size_cases x2 c) as [[_ E]|[Hno _]]; tauto. }
  assert (Hpsi : forall c, 1 < x1 < 65535 -> 1 < x3 < x1 ->
                   read_psi x3 x1 c = (Next x3, c)).
  { intros c H1 H. destruct (read_psi_cases x3 x1 c H1) as [[_ E]|[Hno _]]; tauto. }
  split; [|split; [|split; [|split; [|split; [|split]]]]].
  - intros H. rewrite proc_bind_unfold. unfold read_modulus.
    assert ((x1 <=? 1) = true) as -> by (apply Z.leb_le; lia). reflexivity.
  - intros H. rewrite proc_bind_unfold. unfold read_modulus.
    assert ((x1 <=? 1) = false) as -> by (apply Z.leb_gt; lia).
    assert ((x1 >=? 65535) = true) as -> by (apply Z.geb_le; lia). reflexivity.
  - intros H1 H. rewrite proc_bind_unfold, Hmod by assumption.
    rewrite proc_bind_unfold. unfold read_size.
    assert ((x2 <=? 1) = true) as -> by (apply Z.leb_le; lia). reflexivity.
  - intros H1 H. rewrite proc_bind_unfold, Hmod by assumption.
    rewrite proc_bind_unfold. unfold read_size.
    assert ((x2 <=? 1) = false) as -> by (apply Z.leb_gt; lia).
    assert ((x2 >=? 100000) = true) as -> by (apply Z.geb_le; lia). reflexivity.
  - intros H1 H2 H. rewrite proc_bind_unfold, Hmod by assumption.
    rewrite proc_bind_unfold, Hsize by assumption.
    rewrite proc_bind_unfold. unfold read_psi.
    assert ((x3 <=? 1) || (x3 >=? x1) = true) as ->.
    { apply orb_true_iff. destruct H; [left; apply Z.leb_le | right; apply Z.geb_le]; lia. }
    rewrite (u32_small (x1 - 1)) by lia. reflexivity.
  - intros H1 H2 H3 H. rewrite proc_bind_unfold, Hmod by assumption.
    rewrite proc_bind_unfold, Hsize by assumption.
    rewrite proc_bind_unfold, Hpsi by assumption.
    cbv zeta. rewrite proc_bind_unfold. unfold check_root.
    rewrite proc_bind_unfold, (power_value x3 x2 x1) by lia. cbn [lift].
    rewrite (u32_small (x1 - 1)) by lia.
    assert ((x3 ^ x2 mod x1 =? x1 - 1) = false) as -> by (apply Z.eqb_neq; lia).
    reflexivity.
  - intros H1 H2 H3 Hroot (i & Hi & Hone).
    rewrite proc_bind_unfold, Hmod by assumption.
    rewrite proc_bind_unfold, Hsize by assumption.
    rewrite proc_bind_unfold, Hpsi by assumption.
    cbv zeta. rewrite proc_bind_unfold.
    destruct (check_root_cases x1 x2 x3 console_empty H1 H2 H3)
      as [[_ ->]|[(v & Hv & Hne) _]].
    2:{ rewrite power_value in Hv by lia. injection Hv as <-. contradiction. }
    rewrite proc_bind_unfold.
    rewrite (check_primitive_reports x1 x3 _ (Z.to_nat (x2 - 1)) 1 console_empty);
      try lia.
    + destruct (phi_value x3 x1 H1 H3) as [-> _]. reflexivity.
    + exists i. split; [lia | exact Hone].
Qed.

(** X14: both tools report the first check that fails, and only that
    one.  On a command line (x1, x2, x3), in this order: a modulus
    x1 <= 1, a modulus x1 >= 65535, a size x2 <= 1, a size x2 >= 100000,
    a psi outside [2, x1), psi^n mod q <> q - 1 (the message carries psi
    and psi^n mod q), a power psi^i mod q = 1 with 1 <= i < n (two lines,
    carrying psi^2 mod q), and a size with gcd(n, q) <> 1 each end the run
    by [exit(EXIT_FAILURE)] with exactly the diagnostic of that check on
    [stderr] and nothing on [stdout]. *)
Theorem first_failed_check_is_reported x1 x2 x3 block :
  let fails d :=
    PsiPowerTables.run [x1; x2; x3] = (Exited EXIT_FAILURE, Console d [])
    /\ ShoupTables.run block [x1; x2; x3] = (Exited EXIT_FAILURE, Console d []) in
  (x1 <= 1 -> fails [Invalid_modulus x1])
  /\ (65535 <= x1 -> fails [Modulus_too_large])
  /\ (1 < x1 < 65535 -> x2 <= 1 -> fails [Invalid_size x2])
  /\ (1 < x1 < 65535 -> 100000 <= x2 -> fails [Size_too_large])
  /\ (1 < x1 < 65535 -> 1 < x2 < 100000 -> x3 <= 1 \/ x1 <= x3 ->
      fails [Psi_out_of_range (x1 - 1)])
  /\ (1 < x1 < 65535 -> 1 < x2 < 100000 -> 1 < x3 < x1 ->
      x3 ^ x2 mod x1 <> x1 - 1 ->
      fails [Not_root_of_minus_one x3 (x3 ^ x2 mod x1)])
  /\ (1 < x1 < 65535 -> 1 < x2 < 100000 -> 1 < x3 < x1 ->
      x3 ^ x2 mod x1 = x1 - 1 ->
      (exists i, 1 <= i < x2 /\ x3 ^ i mod x1 = 1) ->
      fails [Not_primitive (x3 ^ 2 mod x1); Not_primitive_exponent])
  /\ (root_checked x1 x2 x3 -> Z.gcd x2 x1 <> 1 ->
      fails [Size_not_invertible x2 x1]).
Proof.
  intros fails. subst fails. cbv beta.
  pose proof (root_checks_report x1 x2 x3 psi_main_rest) as P.
  pose proof (root_checks_report x1 x2 x3 (shoup_main_rest block)) as S.
  cbv zeta beta in P, S.
  destruct P as (P1 & P2 & P3 & P4 & P5 & P6 & P7).
  destruct S as (S1 & S2 & S3 & S4 & S5 & S6 & S7).
  split; [intros H; split; [exact (P1 H) | exact (S1 H)]|].
  split; [intros H; split; [exact (P2 H) | exact (S2 H)]|].
  split; [intros H1 H; split; [exact (P3 H1 H) | exact (S3 H1 H)]|].
  split; [intros H1 H; split; [exact (P4 H1 H) | exact (S4 H1 H)]|].
  split; [intros H1 H2 H; split; [exact (P5 H1 H2 H) | exact (S5 H1 H2 H)]|].
  split; [intros H1 H2 H3 H; split; [exact (P6 H1 H2 H3 H) | exact (S6 H1 H2 H3 H)]|].
  split; [intros H1 H2 H3 H4 H; split;
          [exact (P7 H1 H2 H3 H4 H) | exact (S7 H1 H2 H3 H4 H)]|].
  intros Hok Hg.
  destruct (size_inverse_after_root_checks x1 x2 x3 Hok) as [[_ E]|[Hg' _]];
    [|contradiction].
  split.
  - destruct (psi_run_cases x1 x2 x3) as [[Hno _]|[_ ->]]; [contradiction|].
    unfold psi_tail. rewrite E. reflexivity.
  - destruct (shoup_run_cases block x1 x2 x3) as [[Hno _]|[_ ->]]; [contradiction|].
    unfold shoup_tail. rewrite E. reflexivity.
Qed.

Lemma first_failed_check_is_reported_witness :
  (PsiPowerTables.run [70000; 8; 2] = (Exited EXIT_FAILURE, Console [Modulus_too_large] [])
   /\ ShoupTables.run None [70000; 8; 2]
      = (Exited EXIT_FAILURE, Console [Modulus_too_large] []))
  /\ (PsiPowerTables.run [7681; 8; 2]
      = (Exited EXIT_FAILURE, Console [Not_root_of_minus_one 2 (2 ^ 8 mod 7681)] [])
      /\ ShoupTables.run None [7681; 8; 2]
         = (Exited EXIT_FAILURE, Console [Not_root_of_minus_one 2 (2 ^ 8 mod 7681)] [])).
Proof.
  split.
  - apply (first_failed_check_is_reported 70000 8 2 None). lia.
  - apply (first_failed_check_is_reported 7681 8 2 None); try lia.
    vm_compute. discriminate.
Defined.

(** * The printed text *)

Lemma power_table_body_entries count : forall k x b q,
  power_table_body count k x b q
  = print_table_body (power_table_entries count x b q) k.
Proof.
  induction count as [|count IH]; intros k x b q; [reflexivity|].
  cbn [power_table_body power_table_entries print_table_body].
  rewrite IH. reflexivity.
Qed.

Lemma table_body_text_short l :
  l <> [] -> (length l < 8)%nat -> table_body_text l = text_line l.
Proof.
  intros Hne Hlen.
  destruct l as [|x1 [|x2 [|x3 [|x4 [|x5 [|x6 [|x7 [|x8 rest]]]]]]]];
    try contradiction; try reflexivity.
  cbn in Hlen. lia.
Qed.

Lemma print_table_body_mid x cells k :
  0 <= k < 7 ->
  print_table_body (x :: cells) k
  = ((if k =? 0 then [Tok_indent] else [])
     ++ Tok_entry x :: (print_table_body cells (k + 1)).1,
     (print_table_body cells (k + 1)).2).
Proof.
  intros Hk. cbn [print_table_body].
  rewrite (u32_small (k + 1)) by lia.
  assert ((k + 1 =? 8) = false) as -> by (apply Z.eqb_neq; lia).
  destruct (print_table_body cells (k + 1)). reflexivity.
Qed.

Lemma print_table_body_last x cells :
  print_table_body (x :: cells) 7
  = (Tok_entry x :: Tok_newline :: (print_table_body cells 0).1,
     (print_table_body cells 0).2).
Proof.
  cbn [print_table_body]. change (u32 (7 + 1)) with 8. change (8 =? 8) with true.
  change (7 =? 0) with false. cbn iota.
  destruct (print_table_body cells 0). reflexivity.
Qed.

Lemma table_body_text_full x1 x2 x3 x4 x5 x6 x7 x8 rest :
  table_body_text (x1 :: x2 :: x3 :: x4 :: x5 :: x6 :: x7 :: x8 :: rest)
  = text_line [x1; x2; x3; x4; x5; x6; x7; x8] ++ table_body_text rest.
Proof.
  unfold table_body_text.
  rewrite (print_table_body_mid x1 _ 0) by lia. change (0 + 1) with 1.
  rewrite (print_table_body_mid x2 _ 1) by lia. change (1 + 1) with 2.
  rewrite (print_table_body_mid x3 _ 2) by lia. change (2 + 1) with 3.
  rewrite (print_table_body_mid x4 _ 3) by lia. change (3 + 1) with 4.
  rewrite (print_table_body_mid x5 _ 4) by lia. change (4 + 1) with 5.
  rewrite (print_table_body_mid x6 _ 5) by lia. change (5 + 1) with 6.
  rewrite (print_table_body_mid x7 _ 6) by lia. change (6 + 1) with 7.
  rewrite print_table_body_last. reflexivity.
Qed.

Lemma table_body_text_rows fuel : forall l,
  (length l <= fuel)%nat ->
  table_body_text l = concat (map text_line (rows_of fuel l))
  /\ lines_of l (rows_of fuel l).
Proof.
  induction fuel as [|fuel IH]; intros l Hlen.
  - destruct l; [|cbn in Hlen; lia]. split; [reflexivity|].
    split; [reflexivity|]. split; [constructor|]. intros i r Hi. cbn in Hi. lia.
  - destruct l as [|x1 rest1]; [split; [reflexivity|];
      split; [reflexivity|]; split; [constructor|]; intros i r Hi; cbn in Hi; lia|].
    destruct (le_lt_dec 8 (length (x1 :: rest1))) as [Hfull|Hshort].
    + destruct rest1 as [|x2 [|x3 [|x4 [|x5 [|x6 [|x7 [|x8 rest]]]]]]];
        try (cbn in Hfull; lia).
      destruct (IH rest ltac:(cbn in Hlen; lia)) as (Htext & Hcat & Hall & Hmid).
      cbn [rows_of take drop]. rewrite take_0, drop_0.
      split; [rewrite table_body_text_full, Htext; reflexivity|].
      split; [rewrite concat_cons, Hcat; reflexivity|].
      split; [constructor; [cbn; lia | exact Hall]|].
      intros i r Hi Hr. destruct i as [|i].
      * cbn in Hr. by injection Hr as <-.
      * cbn in Hi, Hr. apply (Hmid i r); [lia | exact Hr].
    + cbn [rows_of]. rewrite take_ge, drop_ge by lia.
      assert (Hnil : rows_of fuel [] = []) by (destruct fuel; reflexivity).
      rewrite Hnil. cbn [map concat]. rewrite app_nil_r.
      split; [apply table_body_text_short; [discriminate | exact Hshort]|].
      split; [cbn; rewrite app_nil_r; reflexivity|].
      split; [constructor; [cbn in *; lia | constructor]|].
      intros i r Hi. cbn in Hi. lia.
Qed.

(** X15: for a modulus q > 0, the text that [power_table] prints is the
    declaration line carrying the table name, q and n, then the entries of
    the table (x, then each time the one before times b modulo q) in lines
    that each open with the indentation and end with a line end, then the
    closing brace; every line but the last has exactly 8 entries and the
    last has between 1 and 8, so no line is empty and none is left open. *)
Theorem power_table_text_layout name n q x b :
  0 < q ->
  exists rows,
    power_table_text name n q x b
    = Tok_header_q_n name q n n :: concat (map text_line rows) ++ [Tok_footer]
    /\ lines_of (t_entries (power_table name n q x b)) rows.
Proof.
  intros _. unfold power_table_text. rewrite power_table_body_entries.
  set (l := power_table_entries (Z.to_nat n) x b q).
  destruct (table_body_text_rows (length l) l ltac:(lia)) as [Htext Hrows].
  exists (rows_of (length l) l). split; [|exact Hrows].
  rewrite <- Htext. unfold table_body_text.
  destruct (print_table_body l 0) as [body k]. cbn [fst snd].
  rewrite <- app_assoc. reflexivity.
Qed.

Lemma power_table_text_layout_witness :
  exists rows,
    power_table_text psi_powers_ntt 4 7681 1 1925
    = Tok_header_q_n psi_powers_ntt 7681 4 4
      :: concat (map text_line rows) ++ [Tok_footer]
    /\ lines_of (t_entries (power_table psi_powers_ntt 4 7681 1 1925)) rows.
Proof. apply (power_table_text_layout psi_powers_ntt 4 7681 1 1925). lia. Defined.

(** X16: the text that [print_table] prints for an array of at least n
    cells is the declaration line carrying the name, n and q, then the
    first n cells in lines of 8 entries (the last line has between 1
    and 8), each opened by the indentation and closed by a line end, then
    the closing brace. *)
Theorem print_table_text_layout name a n q :
  0 <= n <= Z.of_nat (length a) ->
  exists rows,
    print_table_text name a n q
    = Tok_header_n_q name n q n :: concat (map text_line rows) ++ [Tok_footer]
    /\ lines_of (t_entries (print_table name a n q)) rows
    /\ Z.of_nat (length (concat rows)) = n.
Proof.
  intros Hn. unfold print_table_text. cbn [print_table t_entries].
  set (l := take (Z.to_nat n) a).
  destruct (table_body_text_rows (length l) l ltac:(lia)) as [Htext Hrows].
  exists (rows_of (length l) l). split; [|split; [exact Hrows|]].
  - rewrite <- Htext. unfold table_body_text.
    destruct (print_table_body l 0) as [body k]. cbn [fst snd].
    rewrite <- app_assoc. reflexivity.
  - destruct Hrows as [-> _]. subst l. rewrite length_take_le; lia.
Qed.

Lemma print_table_text_layout_witness :
  exists rows,
    print_table_text shoup_ntt [0; 1; 1; 4298; 1; 1213; 4298; 5756; 7; 7] 8 7681
    = Tok_header_n_q shoup_ntt 8 7681 8
      :: concat (map text_line rows) ++ [Tok_footer]
    /\ lines_of (t_entries
                   (print_table shoup_ntt [0; 1; 1; 4298; 1; 1213; 4298; 5756; 7; 7]
                      8 7681)) rows
    /\ Z.of_nat (length (concat rows)) = 8.
Proof.
  apply (print_table_text_layout shoup_ntt [0; 1; 1; 4298; 1; 1213; 4298; 5756; 7; 7]
           8 7681).
  cbn. lia.
Defined.
